(** * The middleware pipeline of @loopback/rest

    A shallow embedding of
    [packages/rest/src/providers/invoke-middleware.provider.ts] and of the
    middleware sources that accompany it ([middleware-interceptor.ts],
    [middleware.ts], [types.ts]), with the properties the design document
    states about them.

    Part I holds the definitions, in the order of the sources; Part II the
    lemmas and theorems. *)

From Stdlib Require Import Ascii.
From stdpp Require Import gmap strings list sorting.

(** * Part I: the program *)

(** ** JavaScript values and completions *)

(** The few shapes of JavaScript values the code distinguishes. [VObj] is an
    object known by its identity. *)
Inductive value :=
  | VUndefined
  | VNull
  | VBool (b : bool)
  | VNum (n : Z)
  | VStr (s : string)
  | VObj (id : nat).

(** [err != null] is false for [null] and [undefined] only. *)
Definition nullish (v : value) : bool :=
  match v with
  | VUndefined | VNull => true
  | _ => false
  end.

(** [a ?? b] on an optional property: [None] is a property that is omitted. *)
Definition orElse {A} (a b : option A) : option A :=
  match a with
  | Some _ => a
  | None => b
  end.

Infix "??" := orElse (at level 61, left associativity).

(** How an [async] function ends: its promise is fulfilled with a value or
    rejected with the thrown one. *)
Inductive completion :=
  | Return (v : value)
  | Throw (e : value).

(** The state of a promise that carries no value of interest. *)
Inductive promise :=
  | Pending
  | Resolved
  | RejectedWith (e : value).

Definition settled (p : promise) : bool :=
  match p with
  | Pending => false
  | _ => true
  end.

(** [resolve()] and [reject(e)] change a pending promise only. *)
Definition settle (p q : promise) : promise :=
  match p with
  | Pending => q
  | _ => p
  end.

Record RequestContext := {
  request : value;
  response : value;
}.

(** ** middleware-interceptor.ts: [toInterceptor] *)

(** What reaches the adapter while it waits. The handler invokes the callback
    it was given, [Callback err]. The handler throws while it runs inside the
    executor of [new Promise], which rejects the promise with the thrown
    value, be it [null] or [undefined]: [Threw e]. The promise of
    [pEvent(requestCtx, 'close')] resolves, [Close], or it is rejected,
    because the context emitted ['error'] before it emitted ['close']:
    [Errored e]. *)
Inductive signal :=
  | Callback (err : value)
  | Close
  | Threw (e : value)
  | Errored (e : value).

(** Once [Promise.race] is reached, signals alternate with the points where
    the job queue lets the function continue after its [await]. *)
Inductive event :=
  | Sig (s : signal)
  | Tick.

(** One invocation of the adapter as its environment drives it: the signals
    sent while [handlerFn] still runs inside the executor, and what happens
    once the function waits on the race. The transitions are defined for
    every list of signals; in a run of the code the handler throws at most
    once, at the end of [inHandler]. *)
Record execution := {
  inHandler : list signal;
  later : list event;
}.

Definition signals (evs : list event) : list signal :=
  omap (fun ev => match ev with Sig s => Some s | Tick => None end) evs.

Definition allSignals (x : execution) : list signal :=
  inHandler x ++ signals (later x).

Definition isProceed (s : signal) : bool :=
  match s with
  | Callback err => nullish err
  | _ => false
  end.

Definition isCallback (s : signal) : bool :=
  match s with
  | Callback _ => true
  | _ => false
  end.

(** The signals of the handler, which settle [handling]: its callback and
    what it throws. *)
Definition settlesHandling (s : signal) : bool :=
  match s with
  | Callback _ | Threw _ => true
  | Close | Errored _ => false
  end.

(** The signals that reject a promise without the callback: what the handler
    throws and the ['error'] of the context. *)
Definition isFailure (s : signal) : bool :=
  match s with
  | Threw _ | Errored _ => true
  | Callback _ | Close => false
  end.

(** A property of the signals among events. *)
Definition onSignal (Q : signal -> Prop) (ev : event) : Prop :=
  match ev with
  | Sig s => Q s
  | Tick => True
  end.

(** The function reaches the code after its [await]: some signal has settled
    the race and the job queue runs the continuation afterwards. *)
Fixpoint resumesAfter (raceSettled : bool) (evs : list event) : bool :=
  match evs with
  | [] => false
  | Sig _ :: rest => resumesAfter true rest
  | Tick :: rest => raceSettled || resumesAfter raceSettled rest
  end.

Definition resumes (x : execution) : bool :=
  resumesAfter (match inHandler x with [] => false | _ :: _ => true end)
               (later x).

(** The variables of one invocation: the flag [toProceed], the promises
    [handling] and [finishing]. *)
Record pending := {
  toProceed : bool;
  handling : promise;
  finishing : promise;
}.

Definition start : pending :=
  {| toProceed := false; handling := Pending; finishing := Pending |}.

(** The callback given to [handlerFn], the [reject] the executor calls with
    what [handlerFn] throws, and the listeners of [pEvent]. *)
Definition deliver (p : pending) (s : signal) : pending :=
  match s with
  | Callback err =>
      if nullish err then
        {| toProceed := true;
           handling := settle (handling p) Resolved;
           finishing := finishing p |}
      else
        {| toProceed := toProceed p;
           handling := settle (handling p) (RejectedWith err);
           finishing := finishing p |}
  | Close =>
      {| toProceed := toProceed p;
         handling := handling p;
         finishing := settle (finishing p) Resolved |}
  | Threw e =>
      {| toProceed := toProceed p;
         handling := settle (handling p) (RejectedWith e);
         finishing := finishing p |}
  | Errored e =>
      {| toProceed := toProceed p;
         handling := handling p;
         finishing := settle (finishing p) (RejectedWith e) |}
  end.

(** [Promise.race([handling, finishing])] subscribes to [handling] first: of
    two promises already settled, [handling] decides. *)
Definition subscribe (p : pending) : promise :=
  match handling p with
  | Pending => finishing p
  | h => h
  end.

(** A promise that settles while the race is pending settles the race. *)
Definition adopt (r old new : promise) : promise :=
  match r, old with
  | Pending, Pending => new
  | _, _ => r
  end.

Section Adapter.
(** [K] is the state of everything downstream of this interceptor; [next()]
    may never settle, which is [None]. [unbound key] is the error of
    [context.get] for a key that is not bound. *)
Context {K : Type}.
Variable HTTP_CONTEXT : string.
Variable unbound : string -> value.

Definition Next := K -> option completion * K.

(** The function suspended at [await Promise.race(...)] ([awaiting]), or past
    it, with the state of the promise it returned ([result]). *)
Record state := {
  vars : pending;
  raced : promise;
  awaiting : bool;
  result : option completion;
  down : K;
}.

(** While the race is pending, so are both promises. *)
Definition coherent (st : state) : Prop :=
  raced st = Pending ->
  handling (vars st) = Pending /\ finishing (vars st) = Pending.

Definition observe (st : state) (s : signal) : state :=
  let p := vars st in
  let p' := deliver p s in
  {| vars := p';
     raced := adopt (adopt (raced st) (handling p) (handling p'))
                    (finishing p) (finishing p');
     awaiting := awaiting st;
     result := result st;
     down := down st |}.

(** The code after the [await]: it throws what the race was rejected with, or
    reads [toProceed]. *)
Definition resume (requestCtx : RequestContext) (next : Next) (st : state)
  : state :=
  if awaiting st then
    match raced st with
    | Pending => st
    | RejectedWith e =>
        {| vars := vars st; raced := raced st; awaiting := false;
           result := Some (Throw e); down := down st |}
    | Resolved =>
        if toProceed (vars st) then
          let '(val, k') := next (down st) in
          {| vars := vars st; raced := raced st; awaiting := false;
             result := val; down := k' |}
        else
          {| vars := vars st; raced := raced st; awaiting := false;
             result := Some (Return (response requestCtx)); down := down st |}
    end
  else st.

Definition step (requestCtx : RequestContext) (next : Next) (st : state)
    (ev : event) : state :=
  match ev with
  | Sig s => observe st s
  | Tick => resume requestCtx next st
  end.

(** The function as it reaches [await Promise.race(...)], the handler having
    sent the signals that gave [p]. *)
Definition suspended (p : pending) (k : K) : state :=
  {| vars := p; raced := subscribe p; awaiting := true;
     result := None; down := k |}.

(** The interceptor returned by [toInterceptor(handlerFn)], applied to
    [context] and [next]. [handlerFn] and the response are present through
    the signals of [x]. *)
Definition toInterceptor (x : execution)
    (context : gmap string RequestContext) (next : Next) (k : K) : state :=
  match context !! HTTP_CONTEXT with
  | None =>
      {| vars := start; raced := Pending; awaiting := false;
         result := Some (Throw (unbound HTTP_CONTEXT)); down := k |}
  | Some requestCtx =>
      foldl (step requestCtx next)
            (suspended (foldl deliver start (inHandler x)) k)
            (later x)
  end.

End Adapter.

Arguments state : clear implicits.
Arguments Next : clear implicits.

(** A downstream chain that counts how often it is entered. *)
Definition counted {K} (next : Next K) : Next (K * nat) :=
  fun '(k, n) => let '(val, k') := next k in (val, (k', S n)).

(** How often one invocation of the adapter calls [next]. *)
Definition nextCalls {K} (HTTP_CONTEXT : string) (unbound : string -> value)
    (x : execution) (context : gmap string RequestContext) (next : Next K)
    (k : K) : nat :=
  snd (down (toInterceptor HTTP_CONTEXT unbound x context (counted next)
               (k, 0))).

(** Two invocations on the same signals with different chains downstream:
    they stand at the same point, and both have called [next] or neither. *)
Definition alike {K1 K2} (next1 : Next K1) (next2 : Next K2) (k1 : K1)
    (k2 : K2) (st1 : state K1) (st2 : state K2) : Prop :=
  vars st1 = vars st2 /\ raced st1 = raced st2 /\ awaiting st1 = awaiting st2
  /\ ((down st1 = k1 /\ down st2 = k2)
      \/ (awaiting st1 = false /\ down st1 = snd (next1 k1)
          /\ down st2 = snd (next2 k2))).

(** ** middleware-interceptor.ts: provider classes and their names *)

(** An Express middleware factory: a function, with its [name] property, that
    makes the handler for a configuration. *)
Record ExpressMiddlewareFactory := {
  name : string;
  produce : option value -> execution;
}.

(** [createInterceptor(middlewareFactory, middlewareConfig)] *)
Definition createInterceptor {K} (HTTP_CONTEXT : string)
    (unbound : string -> value) (middlewareFactory : ExpressMiddlewareFactory)
    (middlewareConfig : option value)
  : gmap string RequestContext -> Next K -> K -> state K :=
  let handlerFn := produce middlewareFactory middlewareConfig in
  toInterceptor HTTP_CONTEXT unbound handlerFn.

(** The character class [\w] of a regular expression without flags. The
    characters of a string are taken one by one, as [replace] takes the code
    units of a JavaScript string. *)
Definition isWordChar (c : ascii) : bool :=
  let n := nat_of_ascii c in
  ((48 <=? n) && (n <=? 57)) || ((65 <=? n) && (n <=? 90))
  || ((97 <=? n) && (n <=? 122)) || (n =? 95).

(** [name.replace(/[^\w]/g, '_')] *)
Fixpoint replaceNonWord (s : string) : string :=
  match s with
  | EmptyString => EmptyString
  | String c rest =>
      String (if isWordChar c then c else "_"%char) (replaceNonWord rest)
  end.

(** A string is truthy when it is not empty. *)
Definition nonEmpty (s : string) : bool :=
  match s with
  | EmptyString => false
  | String _ _ => true
  end.

(** An optional string is truthy when it is given and not empty. *)
Definition truthy (s : option string) : bool :=
  match s with
  | None => false
  | Some s => nonEmpty s
  end.

(** [buildName(middlewareFactory, providedName, suffix)] *)
Definition buildName (middlewareFactory : ExpressMiddlewareFactory)
    (providedName suffix : option string) : option string :=
  if negb (truthy providedName) then
    let name := replaceNonWord (name middlewareFactory) in
    if nonEmpty name then Some (name +:+ default EmptyString suffix)
    else providedName
  else providedName.

(** What [assert] throws, what [new Function] throws for a text that is not
    a program, and what the evaluation of a program throws. *)
Inductive failure :=
  | AssertionError (message : string)
  | SyntaxError
  | ReferenceError
  | TypeError.

(** A provider class: its [name], and what [value()] does on an instance
    made with a configuration, which is to throw or to return the
    interceptor of a handler. *)
Record ProviderClass := {
  className : string;
  valueOf : option value -> failure + execution;
}.

(** The characters of an identifier written in ASCII. *)
Definition isDigit (c : ascii) : bool :=
  let n := nat_of_ascii c in (48 <=? n) && (n <=? 57).

Definition isIdentifierStart (c : ascii) : bool :=
  let n := nat_of_ascii c in
  ((65 <=? n) && (n <=? 90)) || ((97 <=? n) && (n <=? 122))
  || (n =? 95) || (n =? 36).

Definition isIdentifierPart (c : ascii) : bool :=
  isWordChar c || (nat_of_ascii c =? 36).

(** An identifier of ASCII letters, digits, [_] and [$]. *)
Definition isIdentifier (s : string) : bool :=
  match s with
  | EmptyString => false
  | String c rest =>
      isIdentifierStart c
      && forallb isIdentifierPart (String.list_ascii_of_string rest)
  end.

Definition startsWithDigit (s : string) : bool :=
  match s with
  | EmptyString => false
  | String c _ => isDigit c
  end.

(** The characters of identifiers a string begins with, and what follows
    them. *)
Fixpoint identifierPrefix (s : string) : string * string :=
  match s with
  | EmptyString => (EmptyString, EmptyString)
  | String c rest =>
      if isIdentifierPart c then
        let '(word, after) := identifierPrefix rest in (String c word, after)
      else (EmptyString, s)
  end.

(** The words a class cannot have as its name: the reserved words of
    JavaScript, the words reserved in strict mode code, which the text of a
    class is, and [eval] and [arguments]. *)
Definition reservedWords : list string :=
  ["break"; "case"; "catch"; "class"; "const"; "continue"; "debugger";
   "default"; "delete"; "do"; "else"; "enum"; "export"; "extends"; "false";
   "finally"; "for"; "function"; "if"; "import"; "in"; "instanceof"; "new";
   "null"; "return"; "super"; "switch"; "this"; "throw"; "true"; "try";
   "typeof"; "var"; "void"; "while"; "with";
   "implements"; "interface"; "let"; "package"; "private"; "protected";
   "public"; "static"; "yield";
   "eval"; "arguments"].

(** Characters that begin a punctuator and nothing else: not the brace that
    opens the body of a class, not [/] and [<], with which a comment may
    begin. *)
Definition isPunctuator (c : ascii) : bool :=
  bool_decide (c ∈ String.list_ascii_of_string "-+*%!~^&|=>?:,;.)]}([").

Section DefineProvider.
(** The class name is spliced into the text of a program, and it may be any
    text. Where it is more than an identifier, what compiling and calling the
    program gives is [evaluated]. *)
Variable evaluated :
  string -> ExpressMiddlewareFactory -> failure + ProviderClass.

(** [new Function('middlewareFactory', 'MiddlewareInterceptorProvider',
    'createInterceptor', `return class ${className} extends
    MiddlewareInterceptorProvider {...}`)] and the call of the function it
    makes.

    After [class] the parser takes an identifier, [extends] or the body. A
    name that begins with a digit begins with a number, and a reserved word
    is no identifier: the text is no program. Neither is it when a
    punctuator follows the identifier.

    Inside the class its name stands for the class itself. A class named
    [MiddlewareInterceptorProvider] extends itself, before it is
    initialized: the call throws a ReferenceError. A class named
    [middlewareFactory] hands itself to [super] as the factory, and a class
    named [createInterceptor] calls itself in [value()]: both are made, and
    [value()] throws a TypeError, a class being called without [new]. Any
    other class hands the factory and the configuration to
    [createInterceptor]. *)
Definition defineNamedClass (className : string)
    (middlewareFactory : ExpressMiddlewareFactory)
  : failure + ProviderClass :=
  if startsWithDigit className then inl SyntaxError
  else
    let '(word, after) := identifierPrefix className in
    let reserved := bool_decide (word ∈ reservedWords) in
    match after with
    | EmptyString =>
        if reserved then inl SyntaxError
        else if bool_decide (word = "MiddlewareInterceptorProvider")
        then inl ReferenceError
        else
          inr {| className := word;
                 valueOf := fun middlewareConfig =>
                   if bool_decide (word = "middlewareFactory")
                      || bool_decide (word = "createInterceptor")
                   then inl TypeError
                   else inr (produce middlewareFactory middlewareConfig) |}
    | String c _ =>
        if isPunctuator c && negb reserved then inl SyntaxError
        else evaluated className middlewareFactory
    end.

(** [defineInterceptorProvider(middlewareFactory, className)] *)
Definition defineInterceptorProvider
    (middlewareFactory : ExpressMiddlewareFactory) (className : option string)
  : failure + ProviderClass :=
  let className := buildName middlewareFactory className None in
  if truthy className then
    defineNamedClass (default EmptyString className) middlewareFactory
  else inl (AssertionError "className is missing and it cannot be inferred.").

End DefineProvider.

(** ** Bindings and the registry of a context

    The container of @loopback/context and the extension points of
    @loopback/core are outside these sources; what the middleware code needs
    of them is modelled from the design document. *)

(** Modelled from the spec: the ways an entry may end (Interceptor Chain,
    cases a to d); the callables themselves are code of the applications. The
    entry calls [next] once and returns its result, returns a result of its
    own, raises an error, or calls [next] a second time. *)
Inductive ending :=
  | Proceed
  | Respond (v : value)
  | Fail (e : value)
  | ProceedTwice.

(** Modelled from the spec: a registration or deregistration call on the
    registry (Shared-resource policy), here made by an entry while the chain
    runs. *)
Inductive mutation (B : Type) :=
  | Bind (b : B)
  | Unbind (key : string).

Arguments Bind {B} b.
Arguments Unbind {B} key.

(** Modelled from the spec: the callable of an entry, [(context, next) ->
    result]. It is native, with the changes it makes to the registry before
    it ends, or it is a legacy handler behind [toInterceptor]. *)
Inductive Middleware (B : Type) :=
  | Native (effects : list (mutation B)) (e : ending)
  | Wrapped (handlerFn : execution).

Arguments Native {B} effects e.
Arguments Wrapped {B} handlerFn.

(** [Middleware | Constructor<Provider<Middleware>>]: a provider class is its
    name and the middleware its [value()] gives. *)
Inductive MiddlewareOrClass (B : Type) :=
  | Fn (m : Middleware B)
  | Class (className : string) (provides : Middleware B).

Arguments Fn {B} m.
Arguments Class {B} className provides.

(** Modelled from the spec: the Interceptor Entry of the design, a [Binding]
    of @loopback/context: its identity [key], its tags that hold a string,
    of which [group] orders it, the extension points it is attached to (the
    tag [extensionFor] of @loopback/core, which holds one name or a list of
    names), and the callable bound to it. *)
#[warnings="-register-all"]
Inductive Binding := {
  key : string;
  tagMap : gmap string string;
  extensionPoints : list string;
  bound : MiddlewareOrClass Binding;
}.

(** Modelled from the spec: [binding.tag({name: v})] of @loopback/context
    sets one tag of the binding. *)
Definition tag (name v : string) (b : Binding) : Binding :=
  {| key := key b;
     tagMap := <[name := v]> (tagMap b);
     extensionPoints := extensionPoints b;
     bound := bound b |}.

(** Modelled from the spec: [CoreTags.EXTENSION_POINT] of @loopback/core, the
    tag by which the binding of an invoker names its extension point. *)
Definition EXTENSION_POINT : string := "extensionPoint".

(** Modelled from the spec: [extensionFor] of @loopback/core, the template
    that attaches a binding to a named extension point. The binding stays
    attached to the points it was attached to before, and is attached to a
    point once. *)
Definition extensionFor (extensionPointName : string) (b : Binding) : Binding :=
  {| key := key b;
     tagMap := tagMap b;
     extensionPoints :=
       if bool_decide (extensionPointName ∈ extensionPoints b)
       then extensionPoints b
       else extensionPoints b ++ [extensionPointName];
     bound := bound b |}.

(** Modelled from the spec: [extensionFilter] of @loopback/core, the filter
    that accepts the bindings attached to a named extension point. *)
Definition extensionFilter (extensionPointName : string) (b : Binding) : bool :=
  bool_decide (extensionPointName ∈ extensionPoints b).

(** Modelled from the spec: [ctx.add] of @loopback/context. The registry of
    a context is the list of its bindings in the order of registration; a
    binding of a key already bound takes the place of the old one. *)
Fixpoint add (b : Binding) (registry : list Binding) : list Binding :=
  match registry with
  | [] => [b]
  | c :: rest =>
      if decide (key c = key b) then b :: rest else c :: add b rest
  end.

(** Modelled from the spec: [ctx.unbind] of @loopback/context, the
    deregistration of a key. *)
Definition unbind (k : string) (registry : list Binding) : list Binding :=
  List.filter (fun c => negb (bool_decide (key c = k))) registry.

(** Modelled from the spec: [ctx.find] of @loopback/context
    ([findEntriesForExtensionPoint] of the design), the current snapshot of
    the bindings a filter accepts, in the order of registration. *)
Definition find (accepts : Binding -> bool) (registry : list Binding)
  : list Binding :=
  List.filter accepts registry.

(** ** middleware.ts: registration *)

(** [createMiddleware(middlewareFactory, middlewareConfig)]: the middleware is
    the interceptor [createInterceptor] makes, [toInterceptor] of the handler
    of the factory. *)
Definition createMiddleware (middlewareFactory : ExpressMiddlewareFactory)
    (middlewareConfig : option value) : Middleware Binding :=
  Wrapped (produce middlewareFactory middlewareConfig).

(** Default extension point name for middleware. *)
Definition MIDDLEWARE_EXTENSION_POINT : string := "middleware.defaultChain".

(** [MiddlewareBindingOptions] of types.ts, with the options it extends;
    [bindingKey] is its [key]. *)
Record MiddlewareBindingOptions := {
  injectConfiguration : option bool;
  providerClassName : option string;
  bindingKey : option string;
  group : option string;
  extensionPointName : option string;
}.

(** The options [{key, group}]. *)
Definition keyed (k g : string) : MiddlewareBindingOptions :=
  {| injectConfiguration := None;
     providerClassName := None;
     bindingKey := Some k;
     group := Some g;
     extensionPointName := None |}.

(** [asMiddleware(options)]: the template applies [extensionFor], then sets
    the tag [group]. *)
Definition asMiddleware (options : MiddlewareBindingOptions)
    (b : Binding) : Binding :=
  tag "group" (default EmptyString (group options))
    (extensionFor
       (default MIDDLEWARE_EXTENSION_POINT (extensionPointName options)) b).

Section Registration.
(** [createBindingFromClass(cls, {defaultScope, namespace, key})] of
    @loopback/context: from the class, the namespace and the optional key. *)
Variable createBindingFromClass :
  string -> Middleware Binding -> string -> option string -> Binding.

(** [createMiddlewareBinding(middlewareProviderClass, options)] *)
Definition createMiddlewareBinding (className : string)
    (provides : Middleware Binding) (options : MiddlewareBindingOptions)
  : Binding :=
  let options :=
    {| injectConfiguration := injectConfiguration options ?? Some true;
       providerClassName := providerClassName options;
       bindingKey := bindingKey options;
       group := group options;
       extensionPointName :=
         extensionPointName options ?? Some MIDDLEWARE_EXTENSION_POINT |} in
  asMiddleware options
    (createBindingFromClass className provides "middleware"
       (bindingKey options)).

(** [registerMiddleware(ctx, middleware, options)]: the new registry of [ctx]
    and the binding, or the failed assertion. The two cases are those of
    [isProviderClass]. *)
Definition registerMiddleware (ctx : list Binding)
    (middleware : MiddlewareOrClass Binding)
    (options : MiddlewareBindingOptions)
  : failure + (list Binding * Binding) :=
  match middleware with
  | Class className provides =>
      let binding := createMiddlewareBinding className provides options in
      inr (add binding ctx, binding)
  | Fn m =>
      if truthy (bindingKey options) then
        let binding :=
          asMiddleware options
            {| key := default EmptyString (bindingKey options);
               tagMap := ∅;
               extensionPoints := [];
               bound := Fn m |} in
        inr (add binding ctx, binding)
      else inl (AssertionError "options.key is missing.")
  end.

End Registration.

(** ** The order of groups and the chain *)

(** Modelled from the spec: the place of a group in a preference (Group
    Order Resolver). *)
Fixpoint position (g : string) (order : list string) : option nat :=
  match order with
  | [] => None
  | h :: rest => if decide (h = g) then Some 0 else S <$> position g rest
  end.

(** Modelled from the spec: the rank the Group Order Resolver orders by. An
    entry takes the place of its group in the preference; an entry whose
    group the preference does not list, or that has none, takes the place of
    the empty group when the preference lists it, and comes after all listed
    groups otherwise. *)
Definition rank (order : list string) (g : option string) : nat :=
  match g ≫= (fun g => position g order) with
  | Some i => i
  | None => default (length order) (position EmptyString order)
  end.

(** Modelled from the spec: [compareBindingsByTag(tagName, order)] of
    @loopback/context, the comparator of the Group Order Resolver; a
    preference that is omitted is empty. *)
Definition compareBindingsByTag (tagName : string)
    (order : option (list string)) (a b : Binding) : comparison :=
  let order := default [] order in
  Nat.compare (rank order (tagMap a !! tagName))
              (rank order (tagMap b !! tagName)).

(** A comparator that compares ranks. *)
Definition byWeight (weight : Binding -> nat) (a b : Binding) : comparison :=
  Nat.compare (weight a) (weight b).

(** Modelled from the spec: the stable sort of the Group Order Resolver, by
    insertion: an entry goes before the first entry that does not come
    before it, so entries that compare equal keep the order of discovery. *)
Fixpoint insertBy (compare : Binding -> Binding -> comparison)
    (b : Binding) (sorted : list Binding) : list Binding :=
  match sorted with
  | [] => [b]
  | c :: rest =>
      match compare b c with
      | Gt => c :: insertBy compare b rest
      | _ => b :: c :: rest
      end
  end.

(** Modelled from the spec: the stable sort of the Group Order Resolver. *)
Definition sortBy (compare : Binding -> Binding -> comparison)
    (entries : list Binding) : list Binding :=
  foldr (insertBy compare) [] entries.

(** Modelled from the spec: [resolve(entries, preference)] of the Group
    Order Resolver. *)
Definition resolve (entries : list Binding) (preference : list string)
  : list Binding :=
  sortBy (compareBindingsByTag "group" (Some preference)) entries.

(** Modelled from the spec: the Request Context as the chain sees it
    ([RequestContext] extends the context of @loopback/context): the request
    and the response, the registry of bindings, and, to observe the chain,
    the keys of the entries invoked so far. *)
Record World := {
  requestCtx : RequestContext;
  registry : list Binding;
  trail : list string;
}.

(** Modelled from the spec: the chain invokes the entry [b]. *)
Definition entered (b : Binding) (w : World) : World :=
  {| requestCtx := requestCtx w;
     registry := registry w;
     trail := trail w ++ [key b] |}.

(** Modelled from the spec: an entry makes its changes to the registry. *)
Definition perform (effects : list (mutation Binding)) (w : World) : World :=
  {| requestCtx := requestCtx w;
     registry :=
       foldl (fun reg a =>
                match a with
                | Bind b => add b reg
                | Unbind k => unbind k reg
                end) (registry w) effects;
     trail := trail w |}.

(** Modelled from the spec: the callable an entry resolves to, the
    middleware bound or the one the provider class gives. *)
Definition callable (b : Binding) : Middleware Binding :=
  match bound b with
  | Fn m => m
  | Class _ m => m
  end.

Section Chain.
(** The key under which a request context finds itself
    ([RestBindings.Http.CONTEXT]), the error of an unbound key, the result at
    the end of the chain and the error [InvalidChainUsage]. *)
Variable HTTP_CONTEXT : string.
Variable unbound : string -> value.
Variable endOfChain : value.
Variable invalidChainUsage : value.

(** Modelled from the spec: the Interceptor Chain of the design
    ([GenericInterceptorChain] of @loopback/context) on an ordered list of
    entries. Entry [i] is handed a [next] that runs entry [i+1]; past the
    last entry [next] gives the end-of-chain result; a second call of [next]
    fails with [InvalidChainUsage]. A wrapped handler is called with the
    request context, which finds itself under [HTTP_CONTEXT]. *)
Fixpoint invokeEntries (entries : list Binding) (w : World)
  : option completion * World :=
  match entries with
  | [] => (Some (Return endOfChain), w)
  | b :: rest =>
      let next := invokeEntries rest in
      let w := entered b w in
      match callable b with
      | Native effects e =>
          let w := perform effects w in
          match e with
          | Proceed => next w
          | Respond v => (Some (Return v), w)
          | Fail e => (Some (Throw e), w)
          | ProceedTwice =>
              let '(_, w') := next w in
              (Some (Throw invalidChainUsage), w')
          end
      | Wrapped handlerFn =>
          let st :=
            toInterceptor HTTP_CONTEXT unbound handlerFn
              {[ HTTP_CONTEXT := requestCtx w ]} next w in
          (result st, down st)
      end
  end.

(** Modelled from the spec: whether an entry hands over to the rest of the
    chain; a wrapped handler does when its adapter calls [next]. *)
Definition callsNext (rc : RequestContext) (m : Middleware Binding) : bool :=
  match m with
  | Native _ Proceed | Native _ ProceedTwice => true
  | Native _ _ => false
  | Wrapped handlerFn =>
      bool_decide
        (nextCalls HTTP_CONTEXT unbound handlerFn {[ HTTP_CONTEXT := rc ]}
           (fun u : unit => (None, u)) tt = 1)
  end.

(** Modelled from the spec: the entries of an ordered list that get their
    turn, up to the first that does not hand over (Short-circuit). *)
Fixpoint reached (rc : RequestContext) (entries : list Binding)
  : list Binding :=
  match entries with
  | [] => []
  | b :: rest =>
      b :: (if callsNext rc (callable b) then reached rc rest else [])
  end.

(** Modelled from the spec: [new MiddlewareChain(requestCtx, filter,
    comparator)], a [GenericInterceptorChain] of @loopback/context. *)
Record MiddlewareChain := {
  chainFilter : Binding -> bool;
  chainComparator : Binding -> Binding -> comparison;
}.

(** Modelled from the spec: the discovery of a chain, the snapshot of the
    entries its filter accepts in the order of its comparator. *)
Definition getInterceptors (chain : MiddlewareChain) (w : World)
  : list Binding :=
  sortBy (chainComparator chain) (find (chainFilter chain) (registry w)).

(** Modelled from the spec: [chain.invokeInterceptors()]; the entries are
    discovered once, when the invocation starts. *)
Definition invokeInterceptors (chain : MiddlewareChain) (w : World)
  : option completion * World :=
  invokeEntries (getInterceptors chain w) w.

(** ** middleware.ts: [invokeMiddleware] *)

(** [InvokeMiddlewareOptions] of types.ts *)
Record InvokeMiddlewareOptions := {
  extensionPoint : option string;
  orderedGroups : option (list string);
}.

(** The object [{}] as options. *)
Definition noOptions : InvokeMiddlewareOptions :=
  {| extensionPoint := None; orderedGroups := None |}.

(** [invokeMiddleware(requestCtx, options)]; [w] is the request context. *)
Definition invokeMiddleware (options : option InvokeMiddlewareOptions)
    (w : World) : option completion * World :=
  let options := default noOptions options in
  let point := default MIDDLEWARE_EXTENSION_POINT (extensionPoint options) in
  let groups := orderedGroups options in
  let accepts := extensionFilter point in
  let chain :=
    {| chainFilter := accepts;
       chainComparator := compareBindingsByTag "group" groups |} in
  invokeInterceptors chain w.

(** ** invoke-middleware.provider.ts *)

(** The fields of [InvokeMiddlewareProvider]: the injected binding, which
    may be absent, and the default options. *)
Record InvokeMiddlewareProvider := {
  binding : option Binding;
  defaultOptions : InvokeMiddlewareOptions;
}.

(** The provider as its class initialises it. *)
Definition newInvokeMiddlewareProvider (binding : option Binding)
  : InvokeMiddlewareProvider :=
  {| binding := binding;
     defaultOptions :=
       {| extensionPoint := Some MIDDLEWARE_EXTENSION_POINT;
          orderedGroups := Some ["cors"; "apiSpec"; EmptyString] |} |}.

(** The options [value()] hands to [this.action]. *)
Definition actionOptions (this : InvokeMiddlewareProvider)
    (options : option InvokeMiddlewareOptions) : InvokeMiddlewareOptions :=
  let extensionPointName := options ≫= extensionPoint in
  let groups := options ≫= orderedGroups in
  let extensionPointName :=
    extensionPointName
    ?? (binding this ≫= fun b => tagMap b !! EXTENSION_POINT)
    ?? extensionPoint (defaultOptions this) in
  {| extensionPoint := extensionPointName;
     orderedGroups := groups ?? orderedGroups (defaultOptions this) |}.

(** [action(requestCtx, options)] *)
Definition action (this : InvokeMiddlewareProvider)
    (options : option InvokeMiddlewareOptions) (w : World)
  : option completion * World :=
  invokeMiddleware options w.

(** [value()]: the invoker, applied to the request context and the options. *)
Definition invoker (this : InvokeMiddlewareProvider)
    (options : option InvokeMiddlewareOptions) (w : World)
  : option completion * World :=
  action this (Some (actionOptions this options)) w.

End Chain.

(** ** middleware.ts and middleware-interceptor.ts: Express middleware *)

(** [middlewareConfig != null]: the configuration when it is given and is
    neither [null] nor [undefined]. *)
Definition given (middlewareConfig : option value) : option value :=
  match middlewareConfig with
  | Some v => if nullish v then None else Some v
  | None => None
  end.

(** [binding.apply(template)] for a template that only sets tags that hold
    a string. *)
Definition retag (template : gmap string string -> gmap string string)
    (b : Binding) : Binding :=
  {| key := key b;
     tagMap := template (tagMap b);
     extensionPoints := extensionPoints b;
     bound := bound b |}.

Section ExpressMiddleware.
(** What these functions take from outside the sources, as it is given:
    the store [C] of the configurations of a context with
    [ctx.configure(key).to(config)]; what [new Function] makes of a class
    name that is more than an identifier ([evaluated]);
    [createBindingFromClass]; the middleware the container
    gets from a provider class that [defineInterceptorProvider] made, with
    the configuration it injects ([provided]); the tag
    [ContextTags.GLOBAL_INTERCEPTOR_SOURCE] and the tags the template
    [asGlobalInterceptor(group)] of @loopback/core sets. *)
Context {C : Type}.
Variable configure : string -> value -> C -> C.
Variable evaluated :
  string -> ExpressMiddlewareFactory -> failure + ProviderClass.
Variable createBindingFromClass :
  string -> Middleware Binding -> string -> option string -> Binding.
Variable provided : ProviderClass -> Middleware Binding.
Variable GLOBAL_INTERCEPTOR_SOURCE : string.
Variable asGlobalInterceptor :
  option string -> gmap string string -> gmap string string.

(** [if (middlewareConfig != null) ctx.configure(binding.key).to(...)] *)
Definition configured (k : string) (middlewareConfig : option value)
    (configs : C) : C :=
  match given middlewareConfig with
  | Some v => configure k v configs
  | None => configs
  end.


End ExpressMiddleware.

Module Interceptor.

(** [MiddlewareInterceptorBindingOptions] of types.ts, with the options it
    extends. *)
Record MiddlewareInterceptorBindingOptions := {
  injectConfiguration : option bool;
  providerClassName : option string;
  bindingKey : option string;
  group : option string;
  global : option bool;
}.

Section Registration.
Context {C : Type}.
Variable configure : string -> value -> C -> C.
Variable evaluated :
  string -> ExpressMiddlewareFactory -> failure + ProviderClass.
Variable createBindingFromClass :
  string -> Middleware Binding -> string -> option string -> Binding.
Variable provided : ProviderClass -> Middleware Binding.
Variable GLOBAL_INTERCEPTOR_SOURCE : string.
Variable asGlobalInterceptor :
  option string -> gmap string string -> gmap string string.

(** [binding.tag({[GLOBAL_INTERCEPTOR_SOURCE]: 'route'})] and
    [binding.apply(asGlobalInterceptor(options.group))], when
    [options.global]. *)
Definition globally (options : MiddlewareInterceptorBindingOptions)
    (binding : Binding) : Binding :=
  if default false (global options) then
    retag (asGlobalInterceptor (group options))
      (tag GLOBAL_INTERCEPTOR_SOURCE "route" binding)
  else binding.

(** [createMiddlewareInterceptorBinding(middlewareProviderClass, options)] *)
Definition createMiddlewareInterceptorBinding (className : string)
    (provides : Middleware Binding)
    (options : MiddlewareInterceptorBindingOptions) : Binding :=
  let options :=
    {| injectConfiguration := injectConfiguration options;
       providerClassName := providerClassName options;
       bindingKey := bindingKey options;
       group := group options ?? Some "middleware";
       global := global options ?? Some true |} in
  let binding :=
    createBindingFromClass className provides "interceptors" None in
  globally options binding.

(** [registerExpressMiddlewareInterceptor(ctx, middlewareFactory,
    middlewareConfig, options)] *)
Definition registerExpressMiddlewareInterceptor (ctx : list Binding)
    (configs : C) (middlewareFactory : ExpressMiddlewareFactory)
    (middlewareConfig : option value)
    (options : MiddlewareInterceptorBindingOptions)
  : failure + (list Binding * C * Binding) :=
  let options :=
    {| injectConfiguration := injectConfiguration options ?? Some true;
       providerClassName := providerClassName options;
       bindingKey := bindingKey options;
       group := group options ?? Some "middleware";
       global := global options ?? Some true |} in
  if negb (default false (injectConfiguration options)) then
    let key :=
      if truthy (bindingKey options) then bindingKey options
      else
        let name := buildName middlewareFactory None None in
        if truthy name
        then Some ("interceptors." +:+ default EmptyString name)
        else bindingKey options in
    if truthy key then
      let binding :=
        globally options
          {| key := default EmptyString key;
             tagMap := ∅;
             extensionPoints := [];
             bound := Fn (createMiddleware middlewareFactory
                            middlewareConfig) |} in
      inr (add binding ctx, configs, binding)
    else inl (AssertionError "Please set options.key for the binding.")
  else
    match defineInterceptorProvider evaluated middlewareFactory
            (providerClassName options) with
    | inl e => inl e
    | inr providerClass =>
        let binding :=
          createMiddlewareInterceptorBinding (className providerClass)
            (provided providerClass) options in
        inr (add binding ctx,
             configured configure (key binding) middlewareConfig configs,
             binding)
    end.

End Registration.

End Interceptor.

(** ** Sample inputs *)

Module Sample.

Definition HTTP_CONTEXT : string := "rest.http.request.context".

Definition ctx : RequestContext :=
  {| request := VObj 1; response := VObj 2 |}.

Definition context : gmap string RequestContext := {[ HTTP_CONTEXT := ctx ]}.

(** A downstream chain that answers 7 and counts its invocations. *)
Definition next : Next nat := fun n => (Some (Return (VNum 7)), S n).

(** The handler calls back at once, with no error. *)
Definition proceeding : execution :=
  {| inHandler := [Callback VUndefined]; later := [Tick] |}.

(** The handler ends the response and never calls back. *)
Definition closing : execution :=
  {| inHandler := []; later := [Sig Close; Tick] |}.

(** The handler calls back with an error. *)
Definition failing : execution :=
  {| inHandler := []; later := [Sig (Callback (VStr "boom")); Tick] |}.

(** The close event, then a callback with an error that comes too late. *)
Definition closingThenError : execution :=
  {| inHandler := [];
     later := [Sig Close; Sig (Callback (VStr "late")); Tick] |}.

Definition createBindingFromClass (className : string)
    (provides : Middleware Binding) (namespace : string)
    (key : option string) : Binding :=
  {| key := default (namespace +:+ "." +:+ className) key;
     tagMap := ∅;
     extensionPoints := [];
     bound := Class className provides |}.

Definition ungrouped (k : string) : MiddlewareBindingOptions :=
  {| injectConfiguration := None;
     providerClassName := None;
     bindingKey := Some k;
     group := None;
     extensionPointName := None |}.

Definition entry (k g : string) (m : Middleware Binding) : Binding :=
  asMiddleware (keyed k g)
    {| key := k; tagMap := ∅; extensionPoints := []; bound := Fn m |}.

(** Entry A binds a new entry D of its own group and unbinds B while the
    chain runs. *)
Definition D : Binding := entry "D" "cors" (Native [] Proceed).
Definition A : Binding :=
  entry "A" "cors" (Native [Bind D; Unbind "B"] Proceed).
Definition B : Binding := entry "B" EmptyString (Native [] Proceed).
Definition C : Binding := entry "C" "apiSpec" (Native [] Proceed).

Definition world : World :=
  {| requestCtx := ctx; registry := [B; C; A]; trail := [] |}.

End Sample.

Module Fixture.

(** A handler that sends no signal at all, while the job queue runs twice. *)
Definition silent : execution := {| inHandler := []; later := [Tick; Tick] |}.

(** The close promise settles, then the handler calls back with an error,
    both before the handler returns. *)
Definition closedThenFailed : execution :=
  {| inHandler := [Close; Callback (VStr "boom")]; later := [Tick] |}.

(** The handler throws [undefined]; the response closes afterwards. *)
Definition throwing : execution :=
  {| inHandler := [Threw VUndefined]; later := [Sig Close; Tick] |}.

Definition cors : ExpressMiddlewareFactory :=
  {| name := "cors"; produce := fun _ => Sample.proceeding |}.

Definition configure (k : string) (v : value) (configs : gmap string value)
  : gmap string value :=
  <[k := v]> configs.

(** A text that is more than an identifier is taken for the name it begins
    with. *)
Definition evaluated (className : string)
    (middlewareFactory : ExpressMiddlewareFactory)
  : failure + ProviderClass :=
  inr {| className := fst (identifierPrefix className);
         valueOf := fun middlewareConfig =>
           inr (produce middlewareFactory middlewareConfig) |}.

(** The container makes an instance without a configuration and takes its
    [value()]. *)
Definition provided (cls : ProviderClass) : Middleware Binding :=
  match valueOf cls None with
  | inr handlerFn => Wrapped handlerFn
  | inl _ => Native [] (Fail (VStr "TypeError"))
  end.

Definition asGlobalInterceptor (g : option string)
    (tags : gmap string string) : gmap string string :=
  <["globalInterceptorGroup" := default EmptyString g]> tags.




End Fixture.

(** * Part II: properties *)

(** ** The race of [toInterceptor] *)

Section Signals.

Lemma deliver_handling_kept p s :
  settled (handling p) = true -> handling (deliver p s) = handling p.
Proof.
  destruct p as [flag h f]; simpl. intros Hh.
  destruct s as [err| |e|e]; simpl; [|done| |done].
  - destruct h; [done|..]; by destruct (nullish err).
  - by destruct h.
Qed.

Lemma deliver_toProceed_kept p s :
  toProceed p = true -> toProceed (deliver p s) = true.
Proof.
  destruct s as [err| |e|e]; simpl; [by destruct (nullish err)|done..].
Qed.

Lemma deliver_all_handling_kept l : forall p,
  settled (handling p) = true -> handling (foldl deliver p l) = handling p.
Proof.
  induction l as [|s l IH]; intros p Hp; simpl; [done|].
  rewrite IH; rewrite deliver_handling_kept; done.
Qed.

Lemma deliver_all_toProceed_kept l : forall p,
  toProceed p = true -> toProceed (foldl deliver p l) = true.
Proof.
  induction l as [|s l IH]; intros p Hp; simpl; [done|].
  by apply IH, deliver_toProceed_kept.
Qed.

(** Without a signal of the handler, [handling] stays as it is. *)
Lemma deliver_all_no_callback l : forall p,
  Forall (fun s => settlesHandling s = false) l ->
  handling (foldl deliver p l) = handling p.
Proof.
  induction l as [|s l IH]; intros p Hl; simpl; [done|].
  inversion Hl as [|? ? Hs Hl']; subst.
  rewrite IH by done. by destruct s.
Qed.

(** Without a callback that has no error, [toProceed] stays as it is. *)
Lemma deliver_all_no_proceed l : forall p,
  Forall (fun s => isProceed s = false) l ->
  toProceed (foldl deliver p l) = toProceed p.
Proof.
  induction l as [|s l IH]; intros p Hl; simpl; [done|].
  inversion Hl as [|? ? Hs Hl']; subst.
  rewrite IH by done.
  destruct s as [err| |e|e]; simpl in *; [by rewrite Hs|done..].
Qed.

Lemma deliver_finishing_kept p s :
  settled (finishing p) = true -> finishing (deliver p s) = finishing p.
Proof.
  destruct p as [flag h f]; simpl. intros Hf.
  destruct s as [err| |e|e]; simpl;
    [by destruct (nullish err)|by destruct f|done|by destruct f].
Qed.

Lemma deliver_all_finishing_kept l : forall p,
  settled (finishing p) = true ->
  finishing (foldl deliver p l) = finishing p.
Proof.
  induction l as [|s l IH]; intros p Hp; simpl; [done|].
  rewrite IH; rewrite deliver_finishing_kept; done.
Qed.

Lemma deliver_proceed err :
  nullish err = true ->
  toProceed (deliver start (Callback err)) = true
  /\ handling (deliver start (Callback err)) = Resolved.
Proof. unfold deliver. by intros ->. Qed.

Lemma deliver_error err :
  nullish err = false ->
  handling (deliver start (Callback err)) = RejectedWith err.
Proof. unfold deliver. by intros ->. Qed.

(** Any signal settles one of the two promises, so the race that subscribes
    afterwards is settled. *)
Lemma subscribe_after_signal s l :
  settled (subscribe (foldl deliver start (s :: l))) = true.
Proof.
  unfold subscribe. cbn [foldl].
  assert (settled (handling (deliver start s)) = true
          \/ settled (finishing (deliver start s)) = true) as [Hh|Hf].
  { destruct s as [err| |e|e]; simpl; [left; by destruct (nullish err)|auto..]. }
  - rewrite deliver_all_handling_kept by done.
    by destruct (handling (deliver start s)).
  - destruct (handling (foldl deliver (deliver start s) l)); [|done..].
    by rewrite deliver_all_finishing_kept.
Qed.

Lemma signals_app evs1 evs2 :
  signals (evs1 ++ evs2) = signals evs1 ++ signals evs2.
Proof. unfold signals. apply omap_app. Qed.

Lemma Forall_signals (Q : signal -> Prop) evs :
  Forall Q (signals evs) -> Forall (onSignal Q) evs.
Proof.
  induction evs as [|[s|] evs IH]; simpl; intros HQ; [done|..].
  - inversion HQ; subst. constructor; auto.
  - constructor; [done|auto].
Qed.

(** [resumes] in words: some job runs the continuation after at least one
    signal has been sent. *)
Lemma resumesAfter_spec evs : forall raceSettled,
  resumesAfter raceSettled evs = true <->
  exists before after,
    evs = before ++ Tick :: after
    /\ (raceSettled = true \/ signals before <> []).
Proof.
  induction evs as [|[s|] evs IH]; intros seen; simpl.
  - split; [done|]. intros (before & after & Heq & _). by destruct before.
  - rewrite IH. split.
    + intros (before & after & -> & _).
      exists (Sig s :: before), after. split; [done|]. by right.
    + intros (before & after & Heq & _).
      destruct before as [|ev before]; [done|]. injection Heq as _ ->.
      exists before, after. auto.
  - destruct seen; simpl.
    + split; [|done]. intros _. exists [], evs. auto.
    + rewrite IH. split.
      * intros (before & after & -> & Hs).
        exists (Tick :: before), after. split; [done|]. by simpl.
      * intros (before & after & Heq & Hs).
        destruct before as [|ev before].
        { destruct Hs as [?|Hs]; [done|]. by destruct Hs. }
        injection Heq as <- ->. exists before, after. auto.
Qed.

Lemma resumes_spec x :
  resumes x = true <->
  exists before after,
    later x = before ++ Tick :: after /\ inHandler x ++ signals before <> [].
Proof.
  unfold resumes. rewrite resumesAfter_spec.
  split; intros (before & after & Heq & Hs); exists before, after;
    (split; [done|]); destruct (inHandler x) as [|s l]; simpl in *.
  - by destruct Hs.
  - done.
  - by right.
  - by left.
Qed.

End Signals.

Section AdapterFacts.
Context {K : Type}.
Variable requestCtx : RequestContext.
Variable next : Next K.

Lemma coherent_suspended p (k : K) : coherent (suspended p k).
Proof.
  unfold coherent, suspended, subscribe. simpl.
  destruct (handling p); [done|discriminate..].
Qed.

Lemma observe_settles (st : state K) s :
  coherent st -> settled (raced (observe st s)) = true.
Proof.
  unfold coherent, observe. destruct st as [[flag h f] r a res k]. simpl.
  intros Hc. destruct r; [|done..].
  destruct Hc as [-> ->]; [done|].
  destruct s as [err| |e|e]; simpl; [by destruct (nullish err)|done..].
Qed.

Lemma observe_coherent (st : state K) s : coherent st -> coherent (observe st s).
Proof.
  intros Hc Hr. pose proof (observe_settles st s Hc) as Hs.
  rewrite Hr in Hs. done.
Qed.

(** The latch of the race: once settled it no longer changes. *)
Lemma observe_raced_kept (st : state K) s :
  settled (raced st) = true -> raced (observe st s) = raced st.
Proof. unfold observe. simpl. by destruct (raced st). Qed.

Lemma resume_raced st : raced (resume requestCtx next st) = raced st.
Proof.
  unfold resume. destruct (awaiting st); [|done].
  destruct (raced st) eqn:Hr; [done| |done].
  destruct (toProceed (vars st)); [|done]. by destruct (next (down st)).
Qed.

Lemma resume_vars st : vars (resume requestCtx next st) = vars st.
Proof.
  unfold resume. destruct (awaiting st); [|done].
  destruct (raced st) eqn:Hr; [done| |done].
  destruct (toProceed (vars st)); [|done]. by destruct (next (down st)).
Qed.

Lemma resume_coherent st : coherent st -> coherent (resume requestCtx next st).
Proof. unfold coherent. by rewrite resume_raced, resume_vars. Qed.

Lemma step_coherent st ev : coherent st -> coherent (step requestCtx next st ev).
Proof. destruct ev; [apply observe_coherent|apply resume_coherent]. Qed.

Lemma step_raced_kept st ev :
  settled (raced st) = true -> raced (step requestCtx next st ev) = raced st.
Proof. destruct ev; [apply observe_raced_kept|intros _; apply resume_raced]. Qed.

Lemma run_raced_kept evs : forall st,
  settled (raced st) = true -> raced (foldl (step requestCtx next) st evs) = raced st.
Proof.
  induction evs as [|ev evs IH]; intros st Hs; simpl; [done|].
  rewrite IH; rewrite step_raced_kept; done.
Qed.

(** A property every step keeps holds at the end of a run. *)
Lemma run_invariant (P : event -> Prop) (I : state K -> Prop) :
  (forall st ev, P ev -> I st -> I (step requestCtx next st ev)) ->
  forall evs st, Forall P evs -> I st -> I (foldl (step requestCtx next) st evs).
Proof.
  intros Hstep evs. induction evs as [|ev evs IH]; intros st HP HI; simpl; [done|].
  inversion HP; subst. apply IH; auto.
Qed.

(** Past the [await] nothing the function returns or does downstream changes. *)
Lemma step_finished st ev :
  awaiting st = false ->
  let st' := step requestCtx next st ev in
  awaiting st' = false /\ result st' = result st /\ down st' = down st.
Proof.
  intros Ha. destruct ev as [s|]; simpl; [done|].
  unfold resume. by rewrite Ha.
Qed.

Lemma run_finished evs : forall st,
  awaiting st = false ->
  awaiting (foldl (step requestCtx next) st evs) = false /\ result (foldl (step requestCtx next) st evs) = result st
  /\ down (foldl (step requestCtx next) st evs) = down st.
Proof.
  induction evs as [|ev evs IH]; intros st Ha; simpl; [done|].
  destruct (step_finished st ev Ha) as (Ha' & Hr & Hd).
  rewrite <- Hr, <- Hd. by apply IH.
Qed.

(** Before the first signal the continuation has nothing to run on. *)
Lemma resume_idle st : raced st = Pending -> resume requestCtx next st = st.
Proof. unfold resume. intros ->. by destruct (awaiting st). Qed.

(** Liveness: a job that runs after the race has settled takes the function
    past its [await]. *)
Lemma resume_settled st :
  settled (raced st) = true -> awaiting (resume requestCtx next st) = false.
Proof.
  unfold resume. destruct (awaiting st) eqn:Ha; [|done].
  destruct (raced st); [done| |done].
  destruct (toProceed (vars st)); [|done]. by destruct (next (down st)).
Qed.

Lemma run_resumes evs : forall st,
  coherent st ->
  resumesAfter (settled (raced st)) evs = true ->
  awaiting (foldl (step requestCtx next) st evs) = false.
Proof.
  induction evs as [|ev evs IH]; intros st Hc Hr; simpl in *; [done|].
  destruct ev as [s|].
  - cbn [step]. apply IH; [by apply observe_coherent|].
    by rewrite observe_settles.
  - cbn [step]. destruct (settled (raced st)) eqn:Hs; simpl in Hr.
    + apply run_finished. by apply resume_settled.
    + apply IH; [by apply resume_coherent|]. by rewrite resume_raced, Hs.
Qed.

End AdapterFacts.

Section AdapterPaths.
Context {K : Type}.
Variable HTTP_CONTEXT : string.
Variable unbound : string -> value.
Variable context : gmap string RequestContext.
Variable requestCtx : RequestContext.
Hypothesis context_bound : context !! HTTP_CONTEXT = Some requestCtx.
Variable next : Next K.
Variable k : K.

Lemma toInterceptor_bound x :
  toInterceptor HTTP_CONTEXT unbound x context next k
  = foldl (step requestCtx next) (suspended (foldl deliver start (inHandler x)) k)
      (later x).
Proof. unfold toInterceptor. by rewrite context_bound. Qed.

(** Without any signal the function stays at its [await]. *)
Lemma no_signal x :
  allSignals x = [] ->
  toInterceptor HTTP_CONTEXT unbound x context next k = suspended start k
  /\ resumes x = false.
Proof.
  rewrite toInterceptor_bound. unfold allSignals, resumes.
  intros [-> Hl]%app_eq_nil. simpl.
  generalize dependent (later x). intros evs. induction evs as [|[s|] evs IH];
    simpl; intros Hs; [done|done|].
  rewrite resume_idle by done. auto.
Qed.

(** From the first signal on: whether it came inside the handler or later,
    the run is that of a function suspended on a settled race. *)
Lemma first_signal x s :
  head (allSignals x) = Some s ->
  exists l rest,
    allSignals x = s :: l ++ signals rest
    /\ (l = [] \/ inHandler x = s :: l)
    /\ resumes x = resumesAfter true rest
    /\ toInterceptor HTTP_CONTEXT unbound x context next k
       = foldl (step requestCtx next)
           (suspended (foldl deliver start (s :: l)) k) rest.
Proof.
  rewrite toInterceptor_bound. unfold allSignals, resumes.
  destruct (inHandler x) as [|s' l] eqn:Hin; simpl.
  - generalize dependent (later x). clear Hin. intros evs.
    induction evs as [|[s'|] evs IH]; simpl; intros Hs; [done|..].
    + injection Hs as ->. exists [], evs. split_and!; [done|by left|done|].
      f_equal. unfold suspended, observe, subscribe. simpl.
      destruct s as [err| |e|e]; simpl; [by destruct (nullish err)|done..].
    + rewrite resume_idle by done. auto.
  - intros [= ->]. exists l, (later x). split_and!; auto.
Qed.

Lemma suspended_settled s l :
  settled (raced (suspended (foldl deliver start (s :: l)) k)) = true.
Proof. apply subscribe_after_signal. Qed.

(** The proceed path: [toProceed] is set and the race fulfilled. *)
Lemma proceed_run p rest :
  toProceed p = true -> subscribe p = Resolved ->
  let st := foldl (step requestCtx next) (suspended p k) rest in
  (awaiting st = true /\ result st = None /\ down st = k)
  \/ (awaiting st = false /\ result st = fst (next k) /\ down st = snd (next k)).
Proof.
  intros Hp Hr. simpl.
  apply (run_invariant requestCtx next (fun _ => True)
    (fun st => toProceed (vars st) = true /\ raced st = Resolved
      /\ ((awaiting st = true /\ result st = None /\ down st = k)
          \/ (awaiting st = false /\ result st = fst (next k)
              /\ down st = snd (next k))))); [| |simpl; auto 10].
  2: { apply Forall_forall. done. }
  intros st [s|] _ (Hflag & Hrace & Hst); cbn [step].
  - split_and!; [by apply deliver_toProceed_kept| |done].
    rewrite observe_raced_kept; [done|by rewrite Hrace].
  - rewrite resume_raced, resume_vars. split_and!; [done..|].
    unfold resume. destruct Hst as [(Ha & Hres & Hd)|(Ha & Hres & Hd)];
      rewrite Ha; [|by right].
    rewrite Hrace, Hflag, Hd. right. by destruct (next k).
Qed.

(** The error path: the race is rejected. Whatever follows, [next] is not
    called. *)
Lemma reject_run p e rest :
  subscribe p = RejectedWith e ->
  let st := foldl (step requestCtx next) (suspended p k) rest in
  down st = k
  /\ ((awaiting st = true /\ result st = None)
      \/ (awaiting st = false /\ result st = Some (Throw e))).
Proof.
  intros Hr. simpl.
  apply (run_invariant requestCtx next (fun _ => True)
    (fun st => raced st = RejectedWith e /\ down st = k
      /\ ((awaiting st = true /\ result st = None)
          \/ (awaiting st = false /\ result st = Some (Throw e)))));
    [| |simpl; auto 10].
  2: { apply Forall_forall. done. }
  intros st [s|] _ (Hrace & Hd & Hst); cbn [step].
  - split_and!; [|done..].
    rewrite observe_raced_kept; [done|by rewrite Hrace].
  - rewrite resume_raced. split; [done|].
    unfold resume. destruct Hst as [(Ha & Hres)|(Ha & Hres)];
      rewrite Ha; [|by auto].
    rewrite Hrace. simpl. auto.
Qed.

(** Without a callback that has no error [next] is not called, and what the
    function returns is the response. *)
Lemma quiet_run p rest :
  toProceed p = false -> settled (subscribe p) = true ->
  Forall (fun s => isProceed s = false) (signals rest) ->
  let st := foldl (step requestCtx next) (suspended p k) rest in
  down st = k
  /\ (forall v, result st = Some (Return v) -> v = response requestCtx)
  /\ (subscribe p = Resolved ->
      (awaiting st = true /\ result st = None)
      \/ (awaiting st = false
          /\ result st = Some (Return (response requestCtx)))).
Proof.
  intros Hp Hsub Hrest. simpl.
  cut ((fun st => toProceed (vars st) = false /\ raced st = subscribe p
      /\ down st = k
      /\ (forall v, result st = Some (Return v) -> v = response requestCtx)
      /\ (awaiting st = true -> result st = None)
      /\ (subscribe p = Resolved ->
          (awaiting st = true /\ result st = None)
          \/ (awaiting st = false
              /\ result st = Some (Return (response requestCtx)))))
       (foldl (step requestCtx next) (suspended p k) rest)).
  { simpl. tauto. }
  apply (run_invariant requestCtx next
           (onSignal (fun s => isProceed s = false)));
    [|by apply Forall_signals|simpl; split_and!; auto; done].
  intros st [s|] Hs (Hflag & Hrace & Hd & Hv & Hnone & Hst); cbn [step].
  - split_and!; [| |done..].
    + destruct s as [err| |e|e]; simpl in *; [by rewrite Hs|done..].
    + rewrite observe_raced_kept; [done|by rewrite Hrace].
  - rewrite resume_raced, resume_vars. split_and!; [done|done|..].
    + unfold resume. destruct (awaiting st); simpl; [|done].
      destruct (raced st); simpl; [done| |done]. by rewrite Hflag.
    + unfold resume. destruct (awaiting st); simpl; [|done].
      destruct (raced st); simpl; [done| |done]. rewrite Hflag. simpl.
      intros v [= <-]. done.
    + unfold resume. destruct (awaiting st) eqn:Ha; simpl; [|by rewrite Ha].
      rewrite Hrace. destruct (subscribe p); simpl; [done| |done].
      by rewrite Hflag.
    + intros Hres. unfold resume. destruct (awaiting st) eqn:Ha; simpl.
      * rewrite Hrace, Hres, Hflag. simpl. by right.
      * rewrite Ha. by apply Hst.
Qed.

(** The three paths of the adapter, by the first signal. *)

Lemma proceed_path x err :
  head (allSignals x) = Some (Callback err) -> nullish err = true ->
  resumes x = true ->
  let st := toInterceptor HTTP_CONTEXT unbound x context next k in
  awaiting st = false /\ result st = fst (next k) /\ down st = snd (next k).
Proof.
  intros Hhd Herr Hres.
  destruct (first_signal x _ Hhd) as (l & rest & _ & _ & Hr & ->).
  rewrite Hr in Hres. cbv zeta.
  set (p := foldl deliver start (Callback err :: l)).
  destruct (deliver_proceed err Herr) as [Hflag1 Hh1].
  assert (toProceed p = true) as Hflag
    by (unfold p; cbn [foldl]; by apply deliver_all_toProceed_kept).
  assert (subscribe p = Resolved) as Hrace.
  { unfold subscribe, p. cbn [foldl].
    rewrite deliver_all_handling_kept; by rewrite Hh1. }
  pose proof (run_resumes requestCtx next rest (suspended p k)
                (coherent_suspended p k)) as Hlive.
  unfold p in Hlive. rewrite suspended_settled in Hlive. specialize (Hlive Hres).
  destruct (proceed_run p rest Hflag Hrace) as [(Ha & _)|H]; [|done].
  unfold p in Ha. congruence.
Qed.

Lemma error_path x err :
  head (allSignals x) = Some (Callback err) -> nullish err = false ->
  let st := toInterceptor HTTP_CONTEXT unbound x context next k in
  down st = k
  /\ (resumes x = true -> awaiting st = false /\ result st = Some (Throw err)).
Proof.
  intros Hhd Herr.
  destruct (first_signal x _ Hhd) as (l & rest & _ & _ & Hr & ->).
  rewrite Hr. cbv zeta.
  set (p := foldl deliver start (Callback err :: l)).
  pose proof (deliver_error err Herr) as Hh1.
  assert (subscribe p = RejectedWith err) as Hrace.
  { unfold subscribe, p. cbn [foldl].
    rewrite deliver_all_handling_kept; by rewrite Hh1. }
  destruct (reject_run p err rest Hrace) as (Hd & Hst). split; [done|].
  intros Hres.
  pose proof (run_resumes requestCtx next rest (suspended p k)
                (coherent_suspended p k)) as Hlive.
  unfold p in Hlive. rewrite suspended_settled in Hlive. specialize (Hlive Hres).
  destruct Hst as [(Ha & _)|H]; [|done].
  unfold p in Ha. congruence.
Qed.

(** The handler throws, or the context emits ['error'], before anything
    else. *)
Lemma failure_path x e :
  head (allSignals x) = Some (Threw e)
  \/ (head (allSignals x) = Some (Errored e)
      /\ Forall (fun s => settlesHandling s = false) (inHandler x)) ->
  let st := toInterceptor HTTP_CONTEXT unbound x context next k in
  down st = k
  /\ (resumes x = true -> awaiting st = false /\ result st = Some (Throw e)).
Proof.
  intros Hfirst. cbv zeta.
  assert (exists s l rest,
            resumes x = resumesAfter true rest
            /\ toInterceptor HTTP_CONTEXT unbound x context next k
               = foldl (step requestCtx next)
                   (suspended (foldl deliver start (s :: l)) k) rest
            /\ subscribe (foldl deliver start (s :: l)) = RejectedWith e)
    as (s & l & rest & Hr & -> & Hrace).
  { destruct Hfirst as [Hhd|[Hhd Hin]];
      destruct (first_signal x _ Hhd) as (l & rest & _ & Hl & Hr & Heq);
      eexists _, l, rest; (split_and!; [done..|]).
    - unfold subscribe. cbn [foldl].
      by rewrite deliver_all_handling_kept.
    - assert (Forall (fun s => settlesHandling s = false) (Errored e :: l))
        as Hquiet.
      { destruct Hl as [->|Hl]; [by constructor|by rewrite <- Hl]. }
      unfold subscribe. rewrite deliver_all_no_callback by done.
      cbn [foldl start handling].
      by rewrite deliver_all_finishing_kept. }
  rewrite Hr. set (p := foldl deliver start (s :: l)) in *.
  destruct (reject_run p e rest Hrace) as (Hd & Hst). split; [done|].
  intros Hres.
  pose proof (run_resumes requestCtx next rest (suspended p k)
                (coherent_suspended p k)) as Hlive.
  unfold p in Hlive. rewrite suspended_settled in Hlive. specialize (Hlive Hres).
  destruct Hst as [(Ha & _)|H]; [|done].
  unfold p in Ha. congruence.
Qed.

Lemma quiet_path x :
  Forall (fun s => isProceed s = false) (allSignals x) ->
  let st := toInterceptor HTTP_CONTEXT unbound x context next k in
  down st = k
  /\ (forall v, result st = Some (Return v) -> v = response requestCtx).
Proof.
  intros Hq. cbv zeta.
  destruct (head (allSignals x)) as [s|] eqn:Hhd.
  - destruct (first_signal x _ Hhd) as (l & rest & Hall & _ & _ & ->).
    rewrite Hall in Hq. change (s :: l ++ signals rest)
      with ((s :: l) ++ signals rest) in Hq.
    apply Forall_app in Hq as [Hl Hrest].
    edestruct (quiet_run (foldl deliver start (s :: l)) rest) as (Hd & Hv & _);
      [|apply subscribe_after_signal|done|done].
    by rewrite deliver_all_no_proceed.
  - apply head_None in Hhd. destruct (no_signal x Hhd) as [-> _]. done.
Qed.

Lemma close_path x :
  Forall (fun s => settlesHandling s = false) (inHandler x) ->
  head (allSignals x) = Some Close ->
  Forall (fun s => isProceed s = false) (allSignals x) ->
  resumes x = true ->
  let st := toInterceptor HTTP_CONTEXT unbound x context next k in
  awaiting st = false /\ result st = Some (Return (response requestCtx)).
Proof.
  intros Hin Hhd Hq Hres.
  destruct (first_signal x _ Hhd) as (l & rest & Hall & Hl' & Hr & ->).
  rewrite Hr in Hres. cbv zeta.
  set (p := foldl deliver start (Close :: l)).
  rewrite Hall in Hq. change (Close :: l ++ signals rest)
    with ((Close :: l) ++ signals rest) in Hq.
  apply Forall_app in Hq as [Hl Hrest].
  assert (Forall (fun s => settlesHandling s = false) (Close :: l)) as Hcb.
  { destruct Hl' as [->|Heq]; [by constructor|by rewrite <- Heq]. }
  assert (subscribe p = Resolved) as Hrace.
  { unfold subscribe, p. rewrite deliver_all_no_callback by done. simpl.
    by rewrite deliver_all_finishing_kept. }
  assert (toProceed p = false) as Hflag
    by (unfold p; by rewrite deliver_all_no_proceed).
  pose proof (run_resumes requestCtx next rest (suspended p k)
                (coherent_suspended p k)) as Hlive.
  unfold p in Hlive. rewrite suspended_settled in Hlive. specialize (Hlive Hres).
  edestruct (quiet_run p rest) as (_ & _ & Hst);
    [done|apply subscribe_after_signal|done|].
  destruct (Hst Hrace) as [(Ha & _)|H]; [|done].
  unfold p in Ha. congruence.
Qed.

End AdapterPaths.

Section AdapterOnce.
Context {K : Type}.
Variable HTTP_CONTEXT : string.
Variable unbound : string -> value.

Lemma counted_once (next : Next K) k :
  snd (snd (counted next (k, 0))) = 1 /\ fst (counted next (k, 0)) = fst (next k)
  /\ fst (snd (counted next (k, 0))) = snd (next k).
Proof. unfold counted. by destruct (next k). Qed.

(** In no execution does the adapter call [next] twice. *)
Lemma next_at_most_once x context (next : Next K) k :
  nextCalls HTTP_CONTEXT unbound x context next k <= 1.
Proof.
  unfold nextCalls, toInterceptor.
  destruct (_ !! HTTP_CONTEXT) as [rc|]; [|simpl; lia].
  cut ((fun st : state (K * nat) =>
          if awaiting st then down st = (k, 0) else snd (down st) <= 1)
         (foldl (step rc (counted next))
            (suspended (foldl deliver start (inHandler x)) (k, 0)) (later x))).
  { simpl. destruct (awaiting _); [intros ->; simpl; lia|done]. }
  apply (run_invariant rc (counted next) (fun _ => True));
    [|by apply Forall_forall|done].
  intros st [s|] _ Hst; cbn [step]; [done|].
  unfold resume. destruct (awaiting st) eqn:Ha; [|by rewrite Ha].
  destruct (raced st); simpl; [by rewrite Ha| |by rewrite Hst; simpl; lia].
  destruct (toProceed (vars st)); simpl; [|by rewrite Hst; simpl; lia].
  rewrite Hst. unfold counted. destruct (next k). simpl. lia.
Qed.

End AdapterOnce.

Section AdapterClaims.
Context {K : Type}.
Variable HTTP_CONTEXT : string.
Variable unbound : string -> value.
Variable context : gmap string RequestContext.
Variable requestCtx : RequestContext.
Variable next : Next K.
Variable k : K.

(** C1. When the first signal is the callback of the handler invoked with no
    error ([err == null]), so before the close event, and the function
    continues after its [await], the adapter calls [next()] exactly once and
    what it returns is what [next()] produced. *)
Theorem proceed_calls_next_once x err :
  context !! HTTP_CONTEXT = Some requestCtx ->
  head (allSignals x) = Some (Callback err) ->
  nullish err = true ->
  resumes x = true ->
  let st := toInterceptor HTTP_CONTEXT unbound x context next k in
  awaiting st = false
  /\ result st = fst (next k)
  /\ down st = snd (next k)
  /\ nextCalls HTTP_CONTEXT unbound x context next k = 1.
Proof.
  intros Hctx Hhd Herr Hres. cbv zeta.
  destruct (proceed_path HTTP_CONTEXT unbound context requestCtx Hctx
              next k x err Hhd Herr Hres) as (Ha & Hr & Hd).
  destruct (proceed_path HTTP_CONTEXT unbound context requestCtx Hctx
              (counted next) (k, 0) x err Hhd Herr Hres) as (_ & _ & Hn).
  split_and!; [done..|].
  unfold nextCalls. rewrite Hn. apply counted_once.
Qed.

(** C2. When the close event fires and the callback of the handler is never
    invoked, the adapter never calls [next()], whatever else happens; and
    once the function continues after its [await] it returns (the response),
    the handler not having thrown and the context not having emitted
    ['error']. *)
Theorem close_returns_without_next x :
  context !! HTTP_CONTEXT = Some requestCtx ->
  Close ∈ allSignals x ->
  Forall (fun s => isCallback s = false) (allSignals x) ->
  let st := toInterceptor HTTP_CONTEXT unbound x context next k in
  nextCalls HTTP_CONTEXT unbound x context next k = 0
  /\ down st = k
  /\ (resumes x = true ->
      Forall (fun s => isFailure s = false) (allSignals x) ->
      awaiting st = false /\ result st = Some (Return (response requestCtx))).
Proof.
  intros Hctx Hclose Hcb. cbv zeta.
  assert (Forall (fun s => isProceed s = false) (allSignals x)) as Hq.
  { eapply Forall_impl; [exact Hcb|]. by intros []. }
  split_and!.
  - unfold nextCalls.
    by destruct (quiet_path HTTP_CONTEXT unbound context requestCtx Hctx
                   (counted next) (k, 0) x Hq) as [-> _].
  - by destruct (quiet_path HTTP_CONTEXT unbound context requestCtx Hctx
                   next k x Hq) as [-> _].
  - intros Hres Hnf.
    assert (Forall (fun s => s = Close) (allSignals x)) as Hall.
    { apply Forall_forall. intros s Hs.
      pose proof (proj1 (Forall_forall _ _) Hcb s Hs) as H1.
      pose proof (proj1 (Forall_forall _ _) Hnf s Hs) as H2.
      by destruct s. }
    apply (close_path HTTP_CONTEXT unbound context requestCtx Hctx);
      [| |done|done].
    + unfold allSignals in Hall. apply Forall_app in Hall as [Hin _].
      eapply Forall_impl; [exact Hin|]. by intros s ->.
    + destruct (allSignals x) as [|s l]; [by inversion Hclose|].
      inversion Hall; subst. done.
Qed.

(** C3. When the first signal is the callback of the handler invoked with an
    error that is not null, the adapter never calls [next()], and once the
    function continues after its [await] the promise it returned is
    rejected with that error. *)
Theorem error_rejects_without_next x err :
  context !! HTTP_CONTEXT = Some requestCtx ->
  head (allSignals x) = Some (Callback err) ->
  nullish err = false ->
  let st := toInterceptor HTTP_CONTEXT unbound x context next k in
  nextCalls HTTP_CONTEXT unbound x context next k = 0
  /\ down st = k
  /\ (resumes x = true -> awaiting st = false /\ result st = Some (Throw err)).
Proof.
  intros Hctx Hhd Herr. cbv zeta.
  destruct (error_path HTTP_CONTEXT unbound context requestCtx Hctx
              next k x err Hhd Herr) as (Hd & Hr).
  destruct (error_path HTTP_CONTEXT unbound context requestCtx Hctx
              (counted next) (k, 0) x err Hhd Herr) as (Hn & _).
  split_and!; [|done..]. unfold nextCalls. by rewrite Hn.
Qed.

(** C8. When the handler does not signal to proceed, a value the adapter
    returns is the response object of the request context and nothing else;
    and on the close path (the close event is the first signal, the handler
    neither called back nor threw while it ran) the adapter does return it
    once the function continues after its [await]. *)
Theorem close_path_returns_response x :
  context !! HTTP_CONTEXT = Some requestCtx ->
  Forall (fun s => isProceed s = false) (allSignals x) ->
  let st := toInterceptor HTTP_CONTEXT unbound x context next k in
  (forall v, result st = Some (Return v) -> v = response requestCtx)
  /\ (Forall (fun s => settlesHandling s = false) (inHandler x) ->
      head (allSignals x) = Some Close ->
      resumes x = true ->
      awaiting st = false /\ result st = Some (Return (response requestCtx))).
Proof.
  intros Hctx Hq. cbv zeta. split.
  - by destruct (quiet_path HTTP_CONTEXT unbound context requestCtx Hctx
                   next k x Hq) as [_ ?].
  - intros Hin Hhd Hres.
    by apply (close_path HTTP_CONTEXT unbound context requestCtx Hctx).
Qed.

(** C4, where the code departs from it. The close event settles the race
    first and alone; the callback with no error follows before the function
    continues: the function reads [toProceed], which the late callback has
    set, and calls [next()]. With the same two signals in the same order and
    the continuation between them, it returns the response instead. *)
Theorem close_first_late_callback_proceeds :
  let closed := {| inHandler := []; later := [Sig Close] |} in
  let early := {| inHandler := [];
                  later := [Sig Close; Sig (Callback VUndefined); Tick] |} in
  let late := {| inHandler := [];
                 later := [Sig Close; Tick; Sig (Callback VUndefined)] |} in
  let context := {[ HTTP_CONTEXT := requestCtx ]} in
  let run x := toInterceptor HTTP_CONTEXT unbound x context next k in
  (raced (run closed) = Resolved /\ handling (vars (run closed)) = Pending)
  /\ (result (run early) = fst (next k)
      /\ nextCalls HTTP_CONTEXT unbound early context next k = 1)
  /\ (result (run late) = Some (Return (response requestCtx))
      /\ nextCalls HTTP_CONTEXT unbound late context next k = 0).
Proof.
  cbv zeta. unfold nextCalls, toInterceptor.
  rewrite !lookup_singleton_eq. cbn [foldl later inHandler step].
  unfold resume, observe, suspended, counted. cbn.
  destruct (next k). done.
Qed.

End AdapterClaims.

(** The paths of the adapter on the sample executions. *)

Lemma proceed_calls_next_once_sample :
  let st :=
    toInterceptor Sample.HTTP_CONTEXT VStr Sample.proceeding Sample.context
      Sample.next 0 in
  awaiting st = false
  /\ result st = Some (Return (VNum 7))
  /\ down st = 1
  /\ nextCalls Sample.HTTP_CONTEXT VStr Sample.proceeding Sample.context
       Sample.next 0 = 1.
Proof.
  apply (proceed_calls_next_once Sample.HTTP_CONTEXT VStr Sample.context
           Sample.ctx Sample.next 0 Sample.proceeding VUndefined).
  - apply lookup_singleton_eq.
  - reflexivity.
  - reflexivity.
  - reflexivity.
Defined.

Lemma close_returns_without_next_sample :
  let st :=
    toInterceptor Sample.HTTP_CONTEXT VStr Sample.closing Sample.context
      Sample.next 0 in
  nextCalls Sample.HTTP_CONTEXT VStr Sample.closing Sample.context
    Sample.next 0 = 0
  /\ down st = 0
  /\ (resumes Sample.closing = true ->
      Forall (fun s => isFailure s = false) (allSignals Sample.closing) ->
      awaiting st = false /\ result st = Some (Return (VObj 2))).
Proof.
  apply (close_returns_without_next Sample.HTTP_CONTEXT VStr Sample.context
           Sample.ctx Sample.next 0 Sample.closing).
  - apply lookup_singleton_eq.
  - left.
  - repeat constructor.
Defined.

Lemma error_rejects_without_next_sample :
  let st :=
    toInterceptor Sample.HTTP_CONTEXT VStr Sample.failing Sample.context
      Sample.next 0 in
  nextCalls Sample.HTTP_CONTEXT VStr Sample.failing Sample.context
    Sample.next 0 = 0
  /\ down st = 0
  /\ (resumes Sample.failing = true ->
      awaiting st = false /\ result st = Some (Throw (VStr "boom"))).
Proof.
  apply (error_rejects_without_next Sample.HTTP_CONTEXT VStr Sample.context
           Sample.ctx Sample.next 0 Sample.failing (VStr "boom")).
  - apply lookup_singleton_eq.
  - reflexivity.
  - reflexivity.
Defined.

Lemma close_path_returns_response_sample :
  let st :=
    toInterceptor Sample.HTTP_CONTEXT VStr Sample.closingThenError
      Sample.context Sample.next 0 in
  (forall v, result st = Some (Return v) -> v = VObj 2)
  /\ (Forall (fun s => settlesHandling s = false)
        (inHandler Sample.closingThenError) ->
      head (allSignals Sample.closingThenError) = Some Close ->
      resumes Sample.closingThenError = true ->
      awaiting st = false /\ result st = Some (Return (VObj 2))).
Proof.
  apply (close_path_returns_response Sample.HTTP_CONTEXT VStr Sample.context
           Sample.ctx Sample.next 0 Sample.closingThenError).
  - apply lookup_singleton_eq.
  - repeat constructor.
Defined.

(** ** Names of provider classes *)

Section ProviderNames.
Variable evaluated :
  string -> ExpressMiddlewareFactory -> failure + ProviderClass.

(** Replacing characters keeps the length: a name is empty after the
    replacement exactly when it was empty before. *)
Lemma replaceNonWord_length s :
  String.length (replaceNonWord s) = String.length s.
Proof. induction s as [|c s IH]; simpl; congruence. Qed.

Lemma replaceNonWord_nonEmpty s : nonEmpty (replaceNonWord s) = nonEmpty s.
Proof. by destruct s. Qed.

Lemma replaceNonWord_word s :
  forall c, In c (String.list_ascii_of_string (replaceNonWord s)) -> isWordChar c = true.
Proof.
  induction s as [|c' s IH]; simpl; [done|].
  intros c [<-|Hc]; [|by apply IH].
  by destruct (isWordChar c') eqn:Hw.
Qed.

Lemma buildName_provided factory n suffix :
  nonEmpty n = true -> buildName factory (Some n) suffix = Some n.
Proof. unfold buildName. simpl. by intros ->. Qed.

Lemma buildName_inferred factory providedName suffix :
  truthy providedName = false ->
  nonEmpty (name factory) = true ->
  buildName factory providedName suffix
  = Some (replaceNonWord (name factory) +:+ default EmptyString suffix).
Proof.
  unfold buildName. intros -> Hn. simpl.
  by rewrite replaceNonWord_nonEmpty, Hn.
Qed.

Lemma buildName_missing factory providedName suffix :
  truthy providedName = false ->
  nonEmpty (name factory) = false ->
  buildName factory providedName suffix = providedName.
Proof.
  unfold buildName. intros -> Hn. simpl.
  by rewrite replaceNonWord_nonEmpty, Hn.
Qed.

Lemma append_empty s : s +:+ EmptyString = s.
Proof.
  induction s as [|c s IH]; [done|].
  change (String c (s +:+ EmptyString) = String c s). by rewrite IH.
Qed.

Lemma isIdentifierStart_part c :
  isIdentifierStart c = true -> isIdentifierPart c = true /\ isDigit c = false.
Proof. destruct c as [[] [] [] [] [] [] [] []]; vm_compute; by intros. Qed.

Lemma identifierPrefix_all s :
  forallb isIdentifierPart (String.list_ascii_of_string s) = true ->
  identifierPrefix s = (s, EmptyString).
Proof.
  induction s as [|c s IH]; simpl; [done|].
  intros [Hc Hs]%andb_true_iff. by rewrite Hc, IH.
Qed.

(** The class of a name that is an identifier. *)
Lemma defineNamedClass_identifier n factory :
  isIdentifier n = true ->
  defineNamedClass evaluated n factory
  = if bool_decide (n ∈ reservedWords) then inl SyntaxError
    else if bool_decide (n = "MiddlewareInterceptorProvider")
    then inl ReferenceError
    else
      inr {| className := n;
             valueOf := fun middlewareConfig =>
               if bool_decide (n = "middlewareFactory")
                  || bool_decide (n = "createInterceptor")
               then inl TypeError
               else inr (produce factory middlewareConfig) |}.
Proof.
  destruct n as [|c n]; [done|]. simpl.
  intros [Hc Hn]%andb_true_iff.
  destruct (isIdentifierStart_part c Hc) as [Hpart Hdigit].
  unfold defineNamedClass. cbn [startsWithDigit identifierPrefix].
  by rewrite Hdigit, Hpart, (identifierPrefix_all n Hn).
Qed.

(** A name built for a class is the class name given, or else the name of
    the factory with its non-word characters replaced. *)
Lemma buildName_className factory wanted n :
  (wanted = Some n /\ nonEmpty n = true)
  \/ (truthy wanted = false /\ n = replaceNonWord (name factory)
      /\ nonEmpty n = true) ->
  buildName factory wanted None = Some n.
Proof.
  intros [[-> Hn]|(Hw & -> & Hn)].
  - by apply buildName_provided.
  - rewrite replaceNonWord_nonEmpty in Hn.
    rewrite buildName_inferred by done. simpl. by rewrite append_empty.
Qed.

(** C10, as the code has it. The assertion fails when the class name is
    omitted or empty and the name of the factory, after the replacement of
    its non-word characters, is empty (an anonymous function). With a class
    name that is not empty, or else with a factory name that is not empty
    after the replacement, a provider class of that name is returned when
    the name is an identifier of ASCII letters, digits, [_] and [$] that is
    neither a reserved word nor [MiddlewareInterceptorProvider]. *)
Theorem defineInterceptorProvider_outcome factory wanted :
  (truthy wanted = false ->
   nonEmpty (replaceNonWord (name factory)) = false ->
   defineInterceptorProvider evaluated factory wanted
   = inl (AssertionError "className is missing and it cannot be inferred."))
  /\ (forall n,
      (wanted = Some n /\ nonEmpty n = true)
      \/ (truthy wanted = false /\ n = replaceNonWord (name factory)
          /\ nonEmpty n = true) ->
      isIdentifier n = true ->
      n ∉ reservedWords ->
      n <> "MiddlewareInterceptorProvider" ->
      exists cls,
        defineInterceptorProvider evaluated factory wanted = inr cls
        /\ className cls = n).
Proof.
  unfold defineInterceptorProvider. split.
  - intros Hc Hn. rewrite replaceNonWord_nonEmpty in Hn.
    rewrite buildName_missing by done. by rewrite Hc.
  - intros n Hbuilt Hid Hres Hbase.
    assert (nonEmpty n = true) as Hn by (by destruct n).
    rewrite (buildName_className factory wanted n Hbuilt). simpl.
    rewrite Hn, defineNamedClass_identifier by done.
    rewrite bool_decide_eq_false_2, bool_decide_eq_false_2 by done.
    by eexists.
Qed.

End ProviderNames.

(** C10, as stated, fails in more than one way. A class name that is given
    and empty counts as omitted: with an anonymous factory the assertion
    fails. And a name there is does not always give a class: a class named
    [MiddlewareInterceptorProvider] cannot extend itself, and [default], the
    name of a function exported as default, the name [2fa] and the name
    [body-parser] make a text that does not compile. *)
Lemma defineInterceptorProvider_unlike_stated :
  let handler := fun _ : option value => {| inHandler := []; later := [] |} in
  let stated factory wanted :=
    let outcome :=
      defineInterceptorProvider Fixture.evaluated factory wanted in
    let omittedAndEmpty :=
      wanted = None /\ replaceNonWord (name factory) = EmptyString in
    (omittedAndEmpty -> exists message, outcome = inl (AssertionError message))
    /\ (~ omittedAndEmpty -> exists cls, outcome = inr cls) in
  ~ stated {| name := EmptyString; produce := handler |} (Some EmptyString)
  /\ ~ stated Fixture.cors (Some "MiddlewareInterceptorProvider")
  /\ ~ stated {| name := "default"; produce := handler |} None
  /\ ~ stated Fixture.cors (Some "2fa")
  /\ ~ stated Fixture.cors (Some "body-parser").
Proof.
  cbv zeta. split_and!; intros [_ Hreturns];
    (destruct Hreturns as [cls Hcls];
       [intros [Hwanted Hname]; vm_compute in Hname; congruence|]);
    vm_compute in Hcls; discriminate.
Qed.

(** ** Registration *)

Lemma asMiddleware_group options b :
  tagMap (asMiddleware options b) !! "group"
  = Some (default EmptyString (group options)).
Proof. unfold asMiddleware, tag. simpl. apply lookup_insert_eq. Qed.

(** Attaching adds the point and keeps the others. *)
Lemma extensionFor_points p extensionPointName b :
  p ∈ extensionPoints (extensionFor extensionPointName b)
  <-> p ∈ extensionPoints b \/ p = extensionPointName.
Proof.
  unfold extensionFor. cbn [extensionPoints]. case_bool_decide as Hin.
  - split; [by left|]. by intros [?| ->].
  - rewrite elem_of_app, list_elem_of_singleton. done.
Qed.

Lemma asMiddleware_extensionPoints options b p :
  p ∈ extensionPoints (asMiddleware options b)
  <-> p ∈ extensionPoints b
      \/ p = default MIDDLEWARE_EXTENSION_POINT (extensionPointName options).
Proof. unfold asMiddleware, tag. cbn [extensionPoints]. apply extensionFor_points. Qed.


Lemma extensionFilter_elem p b :
  extensionFilter p b = true <-> p ∈ extensionPoints b.
Proof. unfold extensionFilter. apply bool_decide_eq_true. Qed.

Lemma asMiddleware_key options b : key (asMiddleware options b) = key b.
Proof. done. Qed.

Lemma add_elem b registry : b ∈ add b registry.
Proof.
  induction registry as [|c rest IH]; simpl; [set_solver|].
  destruct (decide (key c = key b)); set_solver.
Qed.

(** A listed group has the rank of its place. *)
Lemma rank_listed order g i :
  position g order = Some i -> rank order (Some g) = i.
Proof. unfold rank. simpl. by intros ->. Qed.

Lemma position_lt g order i : position g order = Some i -> i < length order.
Proof.
  revert i. induction order as [|h rest IH]; simpl; intros i; [done|].
  destruct (decide (h = g)); [intros [= <-]; lia|].
  destruct (position g rest) as [j|]; simpl; [|done].
  intros [= <-]. specialize (IH j eq_refl). lia.
Qed.

Lemma position_lookup g order i :
  position g order = Some i -> order !! i = Some g.
Proof.
  revert i. induction order as [|h rest IH]; simpl; intros i; [done|].
  destruct (decide (h = g)) as [->|]; [by intros [= <-]|].
  destruct (position g rest) as [j|]; simpl; [|done].
  intros [= <-]. by apply IH.
Qed.

Lemma position_elem g order : g ∈ order -> is_Some (position g order).
Proof.
  induction order as [|h rest IH]; simpl; [by intros ?%not_elem_of_nil|].
  destruct (decide (h = g)); [by eexists|].
  intros [->|Hin]%elem_of_cons; [done|].
  destruct (IH Hin) as [j ->]. by eexists.
Qed.

Section RegistrationClaims.
Variable createBindingFromClass :
  string -> Middleware Binding -> string -> option string -> Binding.

(** C9. A middleware registered with no [group] option gets a binding whose
    tag [group] is the empty string, so in any preference that lists the
    empty group its rank is the place of that marker. *)
Theorem registered_without_group ctx middleware options ctx' b :
  group options = None ->
  registerMiddleware createBindingFromClass ctx middleware options
  = inr (ctx', b) ->
  tagMap b !! "group" = Some EmptyString
  /\ b ∈ ctx'
  /\ (forall preference, EmptyString ∈ preference ->
      position EmptyString preference
      = Some (rank preference (tagMap b !! "group"))).
Proof.
  intros Hgroup Hreg.
  assert (tagMap b !! "group" = Some EmptyString /\ b ∈ ctx') as [Htag Hin].
  { unfold registerMiddleware in Hreg.
    destruct middleware as [m|cls provides].
    - destruct (truthy (bindingKey options)); [|done].
      injection Hreg as <- <-. rewrite asMiddleware_group, Hgroup.
      split; [done|apply add_elem].
    - injection Hreg as <- <-. unfold createMiddlewareBinding.
      rewrite asMiddleware_group. simpl. rewrite Hgroup.
      split; [done|apply add_elem]. }
  split_and!; [done..|].
  intros preference [i Hi]%position_elem. rewrite Htag.
  by rewrite (rank_listed _ _ _ Hi).
Qed.

End RegistrationClaims.

Lemma registered_without_group_sample :
  let b :=
    asMiddleware (Sample.ungrouped "log")
      {| key := "log"; tagMap := ∅; extensionPoints := [];
         bound := Fn (Native [] Proceed) |} in
  tagMap b !! "group" = Some EmptyString
  /\ b ∈ [b]
  /\ (forall preference, EmptyString ∈ preference ->
      position EmptyString preference
      = Some (rank preference (tagMap b !! "group"))).
Proof.
  apply (registered_without_group Sample.createBindingFromClass []
           (Fn (Native [] Proceed)) (Sample.ungrouped "log")).
  - reflexivity.
  - reflexivity.
Defined.

(** ** The order of groups *)

Section Ordering.
(** The sort of the chain under a comparator that compares ranks. *)
Variable weight : Binding -> nat.

Lemma insertBy_perm compare b sorted : insertBy compare b sorted ≡ₚ b :: sorted.
Proof.
  induction sorted as [|c rest IH]; simpl; [done|].
  destruct (compare b c); [done|done|].
  rewrite IH. apply Permutation_swap.
Qed.

(** The sort loses and invents no entry. *)
Lemma sortBy_perm compare entries : sortBy compare entries ≡ₚ entries.
Proof.
  induction entries as [|b rest IH]; simpl; [done|].
  by rewrite insertBy_perm, IH.
Qed.

Lemma insertBy_sorted b sorted :
  Sorted (fun a c => weight a <= weight c) sorted ->
  Sorted (fun a c => weight a <= weight c) (insertBy (byWeight weight) b sorted).
Proof.
  induction sorted as [|c rest IH]; simpl; intros Hs.
  - by repeat constructor.
  - unfold byWeight at 1.
    destruct (Nat.compare_spec (weight b) (weight c)) as [Heq|Hlt|Hgt].
    + constructor; [done|]. constructor. lia.
    + constructor; [done|]. constructor. lia.
    + inversion Hs as [|? ? Hrest Hhd]; subst.
      constructor; [by apply IH|].
      destruct rest as [|d rest']; simpl.
      * constructor. lia.
      * unfold byWeight at 1.
        destruct (Nat.compare_spec (weight b) (weight d));
          constructor; try lia. by inversion Hhd.
Qed.

(** The entries come out in the order of their ranks. *)
Lemma sortBy_sorted entries :
  Sorted (fun a c => weight a <= weight c) (sortBy (byWeight weight) entries).
Proof.
  induction entries as [|b rest IH]; simpl; [constructor|].
  by apply insertBy_sorted.
Qed.

Lemma insertBy_stable n b sorted :
  List.filter (fun a => weight a =? n) (insertBy (byWeight weight) b sorted)
  = List.filter (fun a => weight a =? n) (b :: sorted).
Proof.
  induction sorted as [|c rest IH]; [done|].
  cbn [insertBy]. unfold byWeight at 1.
  destruct (Nat.compare_spec (weight b) (weight c)) as [Heq|Hlt|Hgt]; [done..|].
  cbn [List.filter] in *. rewrite IH.
  destruct (Nat.eqb_spec (weight b) n), (Nat.eqb_spec (weight c) n);
    try done. lia.
Qed.

(** Entries of one rank keep the order in which they were found. *)
Lemma sortBy_stable n entries :
  List.filter (fun a => weight a =? n) (sortBy (byWeight weight) entries)
  = List.filter (fun a => weight a =? n) entries.
Proof.
  induction entries as [|b rest IH]; [done|].
  cbn [sortBy foldr]. rewrite insertBy_stable. cbn [List.filter].
  fold (sortBy (byWeight weight) rest). by rewrite IH.
Qed.

End Ordering.

(** [resolve] is that sort by the rank of the group. *)
Lemma resolve_byWeight entries preference :
  resolve entries preference
  = sortBy (byWeight (fun b => rank preference (tagMap b !! "group"))) entries.
Proof. done. Qed.

(** An empty preference leaves the order of discovery. *)
Lemma resolve_no_preference entries : resolve entries [] = entries.
Proof.
  unfold resolve, sortBy. induction entries as [|b rest IH]; simpl; [done|].
  rewrite IH. destruct rest as [|c rest']; [done|].
  simpl. unfold compareBindingsByTag, rank. simpl.
  by destruct (tagMap b !! "group"), (tagMap c !! "group").
Qed.

(** ** The chain *)

Section AdapterDecides.
(** Whether the adapter calls [next] is decided by the signals, not by what
    is downstream: two runs on the same execution go the same way. *)
Context {K1 K2 : Type}.
Variable rc : RequestContext.
Variable next1 : Next K1.
Variable next2 : Next K2.
Variable k1 : K1.
Variable k2 : K2.

Lemma step_alike st1 st2 ev :
  (awaiting st1 = true -> down st1 = k1 /\ down st2 = k2) ->
  alike next1 next2 k1 k2 st1 st2 ->
  alike next1 next2 k1 k2 (step rc next1 st1 ev) (step rc next2 st2 ev)
  /\ (awaiting (step rc next1 st1 ev) = true ->
      down (step rc next1 st1 ev) = k1 /\ down (step rc next2 st2 ev) = k2).
Proof.
  intros Hstart (Hv & Hr & Ha & Hd). destruct ev as [s|]; cbn [step].
  - unfold alike, observe. simpl. rewrite Hv, Hr. by split_and!.
  - unfold alike, resume. rewrite <- Ha, <- Hr, <- Hv.
    destruct (awaiting st1) eqn:Ha1.
    2: { rewrite Ha1. split_and!; [done..| |done].
         destruct Hd as [?|(_ & ? & ?)]; auto. }
    destruct (Hstart eq_refl) as [Hd1 Hd2].
    destruct (raced st1) eqn:Hr1; simpl.
    + rewrite Hr1, Ha1. split_and!; auto.
    + destruct (toProceed (vars st1)); simpl.
      * rewrite Hd1, Hd2. destruct (next1 k1), (next2 k2). simpl.
        split_and!; auto; done.
      * split_and!; auto; done.
    + split_and!; auto; done.
Qed.

Lemma run_alike evs : forall st1 st2,
  (awaiting st1 = true -> down st1 = k1 /\ down st2 = k2) ->
  alike next1 next2 k1 k2 st1 st2 ->
  alike next1 next2 k1 k2
    (foldl (step rc next1) st1 evs) (foldl (step rc next2) st2 evs).
Proof.
  induction evs as [|ev evs IH]; intros st1 st2 Hstart Hal; simpl; [done|].
  destruct (step_alike st1 st2 ev Hstart Hal) as [Hal' Hstart'].
  by apply IH.
Qed.

End AdapterDecides.

Section ChainFacts.
Variable HTTP_CONTEXT : string.
Variable unbound : string -> value.
Variable endOfChain : value.
Variable invalidChainUsage : value.

(** A wrapped handler leaves the world as it found it, or as the rest of the
    chain left it. *)
Lemma wrapped_hands_over {K} handlerFn rc (next : Next K) k :
  down (toInterceptor HTTP_CONTEXT unbound handlerFn
          {[ HTTP_CONTEXT := rc ]} next k)
  = if callsNext HTTP_CONTEXT unbound rc (Wrapped handlerFn)
    then snd (next k) else k.
Proof.
  unfold callsNext, nextCalls, toInterceptor. rewrite !lookup_singleton_eq.
  set (p := foldl deliver start (inHandler handlerFn)).
  assert (alike (counted (fun u : unit => (None, u))) next (tt, 0) k
            (foldl (step rc (counted (fun u : unit => (None, u))))
               (suspended p (tt, 0)) (later handlerFn))
            (foldl (step rc next) (suspended p k) (later handlerFn))) as Hal.
  { apply run_alike; [done|]. unfold alike. simpl. split_and!; auto. }
  destruct Hal as (_ & _ & _ & [[-> ->]|(_ & -> & ->)]).
  - by rewrite bool_decide_eq_false_2.
  - by rewrite bool_decide_eq_true_2.
Qed.

Lemma perform_trail effects w : trail (perform effects w) = trail w.
Proof. done. Qed.

Lemma perform_requestCtx effects w :
  requestCtx (perform effects w) = requestCtx w.
Proof. done. Qed.

(** The entries that run are those the ordered list reaches, whatever the
    entries do to the registry on their way. *)
Lemma invokeEntries_trail entries : forall w,
  let w' := snd (invokeEntries HTTP_CONTEXT unbound endOfChain
                   invalidChainUsage entries w) in
  requestCtx w' = requestCtx w
  /\ trail w'
     = trail w
       ++ map key (reached HTTP_CONTEXT unbound (requestCtx w) entries).
Proof.
  induction entries as [|b rest IH]; intros w; cbn [invokeEntries reached].
  { simpl. by rewrite app_nil_r. }
  cbv zeta.
  destruct (callable b) as [effects e|handlerFn] eqn:Hcall.
  - pose proof (IH (perform effects (entered b w))) as [Hctx Htrail].
    cbv zeta in Hctx, Htrail. simpl in Hctx, Htrail.
    destruct e; simpl.
    + rewrite Hctx, Htrail. by rewrite <- app_assoc.
    + done.
    + done.
    + destruct (invokeEntries _ _ _ _ rest _) as [r w'] eqn:Hrun.
      simpl in *. rewrite Hctx, Htrail. by rewrite <- app_assoc.
  - simpl. rewrite wrapped_hands_over.
    change (requestCtx (entered b w)) with (requestCtx w).
    destruct (callsNext _ _ _ _) eqn:Hnext.
    + pose proof (IH (entered b w)) as [Hctx Htrail].
      cbv zeta in Hctx, Htrail. simpl in Hctx, Htrail.
      unfold callsNext in Hnext.
      rewrite Hctx, Htrail, Hnext. by rewrite <- app_assoc.
    + unfold callsNext in Hnext. by rewrite Hnext.
Qed.

End ChainFacts.

Section ChainClaims.
Variable HTTP_CONTEXT : string.
Variable unbound : string -> value.
Variable endOfChain : value.
Variable invalidChainUsage : value.

(** C5. The invoker of a provider as its class initialises it: where the
    options omit [orderedGroups] the chain orders by the default preference
    [cors], [apiSpec], empty group; where they omit [extensionPoint] the
    chain takes the entries of the point named by the tag [extensionPoint] of
    the binding, and without that tag of [middleware.defaultChain]. *)
Theorem invoker_falls_back b options w :
  invoker HTTP_CONTEXT unbound endOfChain invalidChainUsage
    (newInvokeMiddlewareProvider b) options w
  = invokeInterceptors HTTP_CONTEXT unbound endOfChain invalidChainUsage
      {| chainFilter :=
           extensionFilter
             match options ≫= extensionPoint with
             | Some point => point
             | None =>
                 match b ≫= (fun b => tagMap b !! "extensionPoint") with
                 | Some point => point
                 | None => "middleware.defaultChain"
                 end
             end;
         chainComparator :=
           compareBindingsByTag "group"
             match options ≫= orderedGroups with
             | Some groups => Some groups
             | None => Some ["cors"; "apiSpec"; EmptyString]
             end |} w.
Proof.
  unfold invoker, action, invokeMiddleware, actionOptions. simpl.
  destruct options as [[[point|] [groups|]]|]; simpl; try done;
    by destruct (b ≫= _).
Qed.

(** C7. The entries a chain runs are those found and ordered in the registry
    as it is when the invocation starts: whatever entries bind or unbind
    while the chain runs, the keys of the entries invoked are those the
    ordered snapshot reaches. *)
Theorem chain_runs_snapshot options w :
  let point :=
    default MIDDLEWARE_EXTENSION_POINT
      (extensionPoint (default noOptions options)) in
  let snapshot :=
    sortBy (compareBindingsByTag "group"
              (orderedGroups (default noOptions options)))
           (find (extensionFilter point) (registry w)) in
  trail (snd (invokeMiddleware HTTP_CONTEXT unbound endOfChain
                invalidChainUsage options w))
  = trail w
    ++ map key (reached HTTP_CONTEXT unbound (requestCtx w) snapshot).
Proof.
  cbv zeta. unfold invokeMiddleware, invokeInterceptors, getInterceptors.
  cbn [chainFilter chainComparator].
  by destruct (invokeEntries_trail HTTP_CONTEXT unbound endOfChain
                 invalidChainUsage
                 (sortBy (compareBindingsByTag "group"
                            (orderedGroups (default noOptions options)))
                    (find (extensionFilter
                             (default MIDDLEWARE_EXTENSION_POINT
                                (extensionPoint (default noOptions options))))
                       (registry w))) w) as [_ ?].
Qed.

(** C6. Entries A of group [cors], B of the empty group and C of group
    [apiSpec], registered in the order B, C, A and each handing over to the
    next, run in the order A, C, B under the preference [cors], [apiSpec],
    empty group. *)
Theorem resolved_order_A_C_B createBindingFromClass effA effB effC rc
    ctx1 ctx2 ctx3 bA bB bC :
  registerMiddleware createBindingFromClass []
    (Fn (Native effB Proceed)) (keyed "B" EmptyString) = inr (ctx1, bB) ->
  registerMiddleware createBindingFromClass ctx1
    (Fn (Native effC Proceed)) (keyed "C" "apiSpec") = inr (ctx2, bC) ->
  registerMiddleware createBindingFromClass ctx2
    (Fn (Native effA Proceed)) (keyed "A" "cors") = inr (ctx3, bA) ->
  let preference := ["cors"; "apiSpec"; EmptyString] in
  let w := {| requestCtx := rc; registry := ctx3; trail := [] |} in
  let run :=
    invokeMiddleware HTTP_CONTEXT unbound endOfChain invalidChainUsage
      (Some {| extensionPoint := None; orderedGroups := Some preference |})
      w in
  ctx3 = [bB; bC; bA]
  /\ resolve (find (extensionFilter MIDDLEWARE_EXTENSION_POINT) ctx3)
       preference = [bA; bC; bB]
  /\ trail (snd run) = ["A"; "C"; "B"]
  /\ fst run = Some (Return endOfChain).
Proof.
  intros HB HC HA. cbv zeta.
  injection HB as <- <-. injection HC as <- <-. injection HA as <- <-.
  split_and!; vm_compute; reflexivity.
Qed.

End ChainClaims.

Lemma resolved_order_A_C_B_sample :
  let bA := Sample.entry "A" "cors" (Native [] Proceed) in
  let bB := Sample.entry "B" EmptyString (Native [] Proceed) in
  let bC := Sample.entry "C" "apiSpec" (Native [] Proceed) in
  let preference := ["cors"; "apiSpec"; EmptyString] in
  let w :=
    {| requestCtx := Sample.ctx; registry := [bB; bC; bA]; trail := [] |} in
  let run :=
    invokeMiddleware Sample.HTTP_CONTEXT VStr VUndefined
      (VStr "InvalidChainUsage")
      (Some {| extensionPoint := None; orderedGroups := Some preference |})
      w in
  [bB; bC; bA] = [bB; bC; bA]
  /\ resolve (find (extensionFilter MIDDLEWARE_EXTENSION_POINT) [bB; bC; bA])
       preference = [bA; bC; bB]
  /\ trail (snd run) = ["A"; "C"; "B"]
  /\ fst run = Some (Return VUndefined).
Proof.
  apply (resolved_order_A_C_B Sample.HTTP_CONTEXT VStr VUndefined
           (VStr "InvalidChainUsage") Sample.createBindingFromClass
           [] [] [] Sample.ctx
           [Sample.entry "B" EmptyString (Native [] Proceed)]
           [Sample.entry "B" EmptyString (Native [] Proceed);
            Sample.entry "C" "apiSpec" (Native [] Proceed)]).
  - reflexivity.
  - reflexivity.
  - reflexivity.
Defined.

(** An entry that binds and unbinds while the chain runs: this run goes by
    the registry as it was, the next run by the registry as it has become. *)
Example mutation_seen_by_next_run_only :
  let invoke :=
    invokeMiddleware Sample.HTTP_CONTEXT VStr VUndefined
      (VStr "InvalidChainUsage")
      (Some {| extensionPoint := None;
               orderedGroups := Some ["cors"; "apiSpec"; EmptyString] |}) in
  let first := snd (invoke Sample.world) in
  let second := snd (invoke first) in
  trail first = ["A"; "C"; "B"]
  /\ map key (registry first) = ["C"; "A"; "D"]
  /\ trail second = ["A"; "C"; "B"; "A"; "D"; "C"].
Proof. vm_compute. done. Qed.

(** ** More on the race of [toInterceptor] *)

Section AdapterMore.
Context {K : Type}.
Variable HTTP_CONTEXT : string.
Variable unbound : string -> value.
Variable context : gmap string RequestContext.
Variable next : Next K.
Variable k : K.

(** A handler that neither calls back nor lets the response close leaves the
    adapter waiting, however often the job queue runs: nothing is returned,
    [next] is not called. *)
Theorem adapter_waits_without_signal requestCtx x :
  context !! HTTP_CONTEXT = Some requestCtx ->
  allSignals x = [] ->
  let st := toInterceptor HTTP_CONTEXT unbound x context next k in
  awaiting st = true /\ result st = None /\ down st = k
  /\ nextCalls HTTP_CONTEXT unbound x context next k = 0.
Proof.
  intros Hctx Hnone. cbv zeta. unfold nextCalls.
  destruct (no_signal HTTP_CONTEXT unbound context requestCtx Hctx next k x
              Hnone) as [-> _].
  by destruct (no_signal HTTP_CONTEXT unbound context requestCtx Hctx
                 (counted next) (k, 0) x Hnone) as [-> _].
Qed.

(** Once the adapter has returned, no signal and no job that comes
    afterwards changes what it returned or calls [next]. *)
Theorem returned_is_final x more :
  awaiting (toInterceptor HTTP_CONTEXT unbound x context next k) = false ->
  let x' := {| inHandler := inHandler x; later := later x ++ more |} in
  let st := toInterceptor HTTP_CONTEXT unbound x context next k in
  let st' := toInterceptor HTTP_CONTEXT unbound x' context next k in
  awaiting st' = false /\ result st' = result st /\ down st' = down st.
Proof.
  cbv zeta. unfold toInterceptor.
  destruct (_ !! HTTP_CONTEXT) as [rc|]; [|done].
  cbn [inHandler later]. rewrite foldl_app. apply run_finished.
Qed.

Lemma deliver_all_invariant (Q : signal -> Prop) (J : pending -> Prop) :
  (forall p s, Q s -> J p -> J (deliver p s)) ->
  forall l p, Forall Q l -> J p -> J (foldl deliver p l).
Proof.
  intros Hstep l. induction l as [|s l IH]; intros p HQ HJ; simpl; [done|].
  inversion HQ; subst. apply IH; auto.
Qed.

Lemma adopt_cases r h h' f f' :
  adopt (adopt r h h') f f' = r
  \/ adopt (adopt r h h') f f' = h'
  \/ adopt (adopt r h h') f f' = f'.
Proof. destruct r, h, h', f; simpl; auto. Qed.

(** All the adapter can do. It is still waiting. Or it throws: the error of
    the unbound key, an error the handler passed to its callback, what the
    handler threw, or the ['error'] the context emitted. Or it returns the
    response of the request context, the close event having come. Or it has
    called [next], after a callback with no error, and what it returns is
    what [next] gave. Only in the last case has [next] been called. *)
Theorem adapter_outcomes x :
  let st := toInterceptor HTTP_CONTEXT unbound x context next k in
  (awaiting st = true /\ result st = None /\ down st = k)
  \/ (down st = k
      /\ exists e, result st = Some (Throw e)
         /\ ((context !! HTTP_CONTEXT = None /\ e = unbound HTTP_CONTEXT)
             \/ (Callback e ∈ allSignals x /\ nullish e = false)
             \/ Threw e ∈ allSignals x
             \/ Errored e ∈ allSignals x))
  \/ (down st = k
      /\ Close ∈ allSignals x
      /\ exists requestCtx, context !! HTTP_CONTEXT = Some requestCtx
         /\ result st = Some (Return (response requestCtx)))
  \/ (result st = fst (next k) /\ down st = snd (next k)
      /\ exists err, Callback err ∈ allSignals x /\ nullish err = true).
Proof.
  cbv zeta. unfold toInterceptor.
  destruct (context !! HTTP_CONTEXT) as [rc|] eqn:Hctx.
  2: { right. left. split; [done|]. eexists. split; [done|]. by left. }
  set (L := allSignals x).
  set (cause := fun e : value =>
    (Callback e ∈ L /\ nullish e = false) \/ Threw e ∈ L \/ Errored e ∈ L).
  set (J := fun p : pending =>
    (toProceed p = true -> exists err, Callback err ∈ L /\ nullish err = true)
    /\ (handling p = Resolved -> toProceed p = true)
    /\ (finishing p = Resolved -> Close ∈ L)
    /\ (forall e, handling p = RejectedWith e -> cause e)
    /\ (forall e, finishing p = RejectedWith e -> cause e)).
  assert (forall p s, s ∈ L -> J p -> J (deliver p s)) as HJstep.
  { intros [flag h f] s Hs (Hflag & Hh & Hf & Hhe & Hfe). unfold J, cause in *.
    simpl in *.
    destruct s as [err| |e0|e0]; simpl;
      [destruct (nullish err) eqn:Herr; simpl|..];
      destruct h, f; simpl in *; naive_solver. }
  assert (Forall (fun s => s ∈ L) (inHandler x)
          /\ Forall (onSignal (fun s => s ∈ L)) (later x)) as [HinL HlaterL].
  { unfold L, allSignals. split.
    - apply Forall_forall. intros s Hs. apply elem_of_app. by left.
    - apply Forall_signals, Forall_forall. intros s Hs.
      apply elem_of_app. by right. }
  assert (J (foldl deliver start (inHandler x))) as HJ0.
  { apply (deliver_all_invariant (fun s => s ∈ L)); [done|done|].
    unfold J, start. simpl. split_and!; done. }
  cut ((fun st : state K =>
    J (vars st)
    /\ (forall e, raced st = RejectedWith e -> cause e)
    /\ (raced st = Resolved -> toProceed (vars st) = true \/ Close ∈ L)
    /\ ((awaiting st = true /\ result st = None /\ down st = k)
        \/ (awaiting st = false /\ down st = k
            /\ exists e, result st = Some (Throw e) /\ cause e)
        \/ (awaiting st = false /\ down st = k /\ Close ∈ L
            /\ result st = Some (Return (response rc)))
        \/ (awaiting st = false /\ result st = fst (next k)
            /\ down st = snd (next k)
            /\ exists err, Callback err ∈ L /\ nullish err = true)))
    (foldl (step rc next)
       (suspended (foldl deliver start (inHandler x)) k) (later x))).
  { intros (_ & _ & _
            & [H|[(_ & Hd & e & He & Hin)|[(_ & Hd & Hc & Hr)|(_ & H)]]]).
    - by left.
    - right. left. split; [done|]. exists e. split; [done|]. by right.
    - right. right. left. split_and!; [done..|]. by exists rc.
    - right. right. right. done. }
  apply (run_invariant rc next (onSignal (fun s => s ∈ L))); [|done|].
  - intros st [s|] Hs (HJ & Hrace & Hres & Hshape); cbn [step].
    + pose proof (HJstep (vars st) s Hs HJ) as HJ'.
      split_and!; [done| | |done].
      * unfold observe. cbn [raced vars]. intros e He.
        destruct HJ' as (_ & _ & _ & Hh' & Hf').
        destruct (adopt_cases (raced st) (handling (vars st))
                    (handling (deliver (vars st) s)) (finishing (vars st))
                    (finishing (deliver (vars st) s))) as [Heq|[Heq|Heq]];
          rewrite Heq in He; auto.
      * unfold observe. cbn [raced vars]. intros He.
        destruct HJ' as (_ & Hh' & Hf' & _).
        destruct (adopt_cases (raced st) (handling (vars st))
                    (handling (deliver (vars st) s)) (finishing (vars st))
                    (finishing (deliver (vars st) s))) as [Heq|[Heq|Heq]];
          rewrite Heq in He; auto.
        destruct (Hres He) as [Hflag|?]; [|by right].
        left. by apply deliver_toProceed_kept.
    + rewrite resume_vars, resume_raced. split_and!; [done..|].
      unfold resume.
      destruct Hshape as [(Ha & Hr & Hd)|Hdone].
      * rewrite Ha. destruct (raced st) eqn:Hraced; simpl.
        -- left. done.
        -- destruct (toProceed (vars st)) eqn:Hflag; simpl.
           ++ rewrite Hd. destruct (next k) as [val k'] eqn:Hnext. simpl.
              right. right. right. split_and!; [done..|].
              destruct HJ as (Hp & _). by apply Hp.
           ++ right. right. left. split_and!; [done..| |done].
              by destruct (Hres eq_refl).
        -- right. left. split_and!; [done..|]. exists e.
           split; [done|]. by apply Hrace.
      * assert (awaiting st = false) as Ha
          by (destruct Hdone as [(? & _)|[(? & _)|(? & _)]]; done).
        rewrite Ha. auto.
  - destruct HJ0 as (Hflag0 & Hh0 & Hf0 & Hhe0 & Hfe0).
    split_and!; [done| | |by left].
    + unfold suspended, subscribe. cbn [raced]. intros e He.
      destruct (handling (foldl deliver start (inHandler x))) eqn:Hh;
        [by apply Hfe0|done|].
      injection He as <-. by apply Hhe0.
    + unfold suspended, subscribe. cbn [raced vars]. intros He.
      destruct (handling (foldl deliver start (inHandler x))) eqn:Hh;
        [right; by apply Hf0|left; by apply Hh0|done].
Qed.

End AdapterMore.

Section AdapterInHandler.
Context {K : Type}.
Variable HTTP_CONTEXT : string.
Variable unbound : string -> value.
Variable context : gmap string RequestContext.
Variable requestCtx : RequestContext.
Variable next : Next K.
Variable k : K.

Lemma callback_after_closes closes err rest :
  Forall (fun s => settlesHandling s = false) closes ->
  let p := foldl deliver start (closes ++ Callback err :: rest) in
  (nullish err = true -> toProceed p = true /\ subscribe p = Resolved)
  /\ (nullish err = false -> subscribe p = RejectedWith err).
Proof.
  intros Hcloses. cbv zeta. rewrite foldl_app. cbn [foldl].
  set (q := foldl deliver start closes).
  assert (handling q = Pending) as Hq
    by (unfold q; by rewrite deliver_all_no_callback).
  split; intros Herr.
  - assert (toProceed (deliver q (Callback err)) = true
            /\ handling (deliver q (Callback err)) = Resolved) as [Hflag Hh].
    { unfold deliver. by rewrite Herr, Hq. }
    split; [by apply deliver_all_toProceed_kept|].
    unfold subscribe. rewrite deliver_all_handling_kept; by rewrite Hh.
  - assert (handling (deliver q (Callback err)) = RejectedWith err) as Hh.
    { unfold deliver. by rewrite Herr, Hq. }
    unfold subscribe. rewrite deliver_all_handling_kept; by rewrite Hh.
Qed.

(** A callback made while the handler still runs, the first signal of the
    handler, decides the race, even when the close promise settled before
    it: [Promise.race] subscribes to [handling] first. With no error the
    adapter calls [next] and returns its result; with an error it rejects
    with it and does not call [next]. *)
Theorem callback_in_handler_decides x closes err rest :
  context !! HTTP_CONTEXT = Some requestCtx ->
  inHandler x = closes ++ Callback err :: rest ->
  Forall (fun s => settlesHandling s = false) closes ->
  let st := toInterceptor HTTP_CONTEXT unbound x context next k in
  (nullish err = true -> resumes x = true ->
   awaiting st = false /\ result st = fst (next k) /\ down st = snd (next k))
  /\ (nullish err = false ->
      down st = k
      /\ (resumes x = true ->
          awaiting st = false /\ result st = Some (Throw err))).
Proof.
  intros Hctx Hin Hcloses. cbv zeta.
  rewrite (toInterceptor_bound HTTP_CONTEXT unbound context requestCtx Hctx).
  set (p := foldl deliver start (inHandler x)).
  assert (resumes x = resumesAfter true (later x)) as Hres.
  { unfold resumes. rewrite Hin. by destruct closes. }
  assert (settled (subscribe p) = true) as Hsettled.
  { unfold p. rewrite Hin. destruct closes; apply subscribe_after_signal. }
  pose proof (run_resumes requestCtx next (later x) (suspended p k)
                (coherent_suspended p k)) as Hlive.
  change (raced (suspended p k)) with (subscribe p) in Hlive.
  rewrite Hsettled, <- Hres in Hlive.
  destruct (callback_after_closes closes err rest Hcloses) as [Hok Hfail].
  rewrite <- Hin in Hok, Hfail. fold p in Hok, Hfail. split.
  - intros Herr Hresumes. destruct (Hok Herr) as [Hflag Hrace].
    destruct (proceed_run requestCtx next k p (later x) Hflag Hrace)
      as [(Ha & _)|H]; [|done].
    specialize (Hlive Hresumes). congruence.
  - intros Herr.
    destruct (reject_run requestCtx next k p err (later x) (Hfail Herr))
      as (Hd & Hst).
    split; [done|]. intros Hresumes. specialize (Hlive Hresumes).
    destruct Hst as [(Ha & _)|H]; [congruence|done].
Qed.

(** A handler that throws before it calls back, or a context that emits
    ['error'] before the handler has called back or thrown and before it
    emits ['close'], makes the adapter reject with what was thrown or
    emitted, be it [null] or [undefined]; [next] is not called, whatever
    follows. *)
Theorem failure_rejects_without_next x e :
  context !! HTTP_CONTEXT = Some requestCtx ->
  head (allSignals x) = Some (Threw e)
  \/ (head (allSignals x) = Some (Errored e)
      /\ Forall (fun s => settlesHandling s = false) (inHandler x)) ->
  let st := toInterceptor HTTP_CONTEXT unbound x context next k in
  nextCalls HTTP_CONTEXT unbound x context next k = 0
  /\ down st = k
  /\ (resumes x = true -> awaiting st = false /\ result st = Some (Throw e)).
Proof.
  intros Hctx Hfirst. cbv zeta.
  destruct (failure_path HTTP_CONTEXT unbound context requestCtx Hctx
              next k x e Hfirst) as (Hd & Hr).
  destruct (failure_path HTTP_CONTEXT unbound context requestCtx Hctx
              (counted next) (k, 0) x e Hfirst) as (Hn & _).
  split_and!; [|done..]. unfold nextCalls. by rewrite Hn.
Qed.

End AdapterInHandler.

(** Whether the adapter calls [next] is decided before [next] is called: it
    is the same whatever the chain downstream is. *)
Theorem next_called_whatever_is_downstream {K1 K2} HTTP_CONTEXT unbound x
    context (next1 : Next K1) (k1 : K1) (next2 : Next K2) (k2 : K2) :
  nextCalls HTTP_CONTEXT unbound x context next1 k1
  = nextCalls HTTP_CONTEXT unbound x context next2 k2.
Proof.
  unfold nextCalls, toInterceptor.
  destruct (_ !! HTTP_CONTEXT) as [rc|]; [|done].
  set (p := foldl deliver start (inHandler x)).
  assert (alike (counted next1) (counted next2) (k1, 0) (k2, 0)
            (foldl (step rc (counted next1)) (suspended p (k1, 0)) (later x))
            (foldl (step rc (counted next2)) (suspended p (k2, 0)) (later x)))
    as Hal.
  { apply run_alike; [done|]. unfold alike. simpl. split_and!; auto. }
  destruct Hal as (_ & _ & _ & [[-> ->]|(_ & -> & ->)]); [done|].
  destruct (counted_once next1 k1) as (-> & _).
  by destruct (counted_once next2 k2) as (-> & _).
Qed.

(** ** More on the names of provider classes *)

Lemma buildName_built factory providedName suffix :
  truthy (buildName factory providedName suffix)
  = truthy providedName || nonEmpty (name factory).
Proof.
  unfold buildName. destruct (truthy providedName) eqn:Hp; simpl; [done|].
  rewrite replaceNonWord_nonEmpty.
  destruct (name factory) as [|c rest]; simpl; [done|done].
Qed.

(** A name can be built exactly when one is provided or the factory has a
    name of its own; a name that is provided is kept as it is, whatever the
    suffix, and a name that is inferred ends with the suffix. *)
Theorem buildName_truthy factory providedName suffix :
  truthy (buildName factory providedName suffix)
  = truthy providedName || nonEmpty (name factory)
  /\ (truthy providedName = true ->
      buildName factory providedName suffix = providedName)
  /\ (truthy providedName = false -> nonEmpty (name factory) = true ->
      buildName factory providedName suffix
      = Some (replaceNonWord (name factory) +:+ default EmptyString suffix)).
Proof.
  split_and!.
  - apply buildName_built.
  - unfold buildName. by intros ->.
  - apply buildName_inferred.
Qed.

(** The replacement keeps the length of a name, leaves only word characters,
    changes nothing when applied again, and changes nothing in a name of
    word characters. *)
Theorem replaceNonWord_sanitises s :
  String.length (replaceNonWord s) = String.length s
  /\ Forall (fun c => isWordChar c = true)
       (String.list_ascii_of_string (replaceNonWord s))
  /\ replaceNonWord (replaceNonWord s) = replaceNonWord s
  /\ (Forall (fun c => isWordChar c = true) (String.list_ascii_of_string s) ->
      replaceNonWord s = s).
Proof.
  induction s as [|c s (Hlen & Hword & Hidem & Hfix)]; simpl.
  { split_and!; done. }
  split_and!.
  - by rewrite Hlen.
  - constructor; [|done]. by destruct (isWordChar c) eqn:Hc.
  - rewrite Hidem. by destruct (isWordChar c) eqn:Hc; [rewrite Hc|].
  - intros Hall. inversion Hall as [|? ? Hc Hrest]; subst.
    by rewrite Hc, Hfix.
Qed.



(** The adapter on the fixtures. *)

Lemma adapter_waits_without_signal_sample :
  let st :=
    toInterceptor Sample.HTTP_CONTEXT VStr Fixture.silent Sample.context
      Sample.next 0 in
  awaiting st = true /\ result st = None /\ down st = 0
  /\ nextCalls Sample.HTTP_CONTEXT VStr Fixture.silent Sample.context
       Sample.next 0 = 0.
Proof.
  apply (adapter_waits_without_signal Sample.HTTP_CONTEXT VStr Sample.context
           Sample.next 0 Sample.ctx Fixture.silent).
  - apply lookup_singleton_eq.
  - reflexivity.
Defined.

Lemma returned_is_final_sample :
  let more := [Sig Close; Sig (Callback (VStr "late")); Tick] in
  let x' :=
    {| inHandler := inHandler Sample.proceeding;
       later := later Sample.proceeding ++ more |} in
  let st :=
    toInterceptor Sample.HTTP_CONTEXT VStr Sample.proceeding Sample.context
      Sample.next 0 in
  let st' :=
    toInterceptor Sample.HTTP_CONTEXT VStr x' Sample.context Sample.next 0 in
  awaiting st' = false /\ result st' = result st /\ down st' = down st.
Proof.
  apply (returned_is_final Sample.HTTP_CONTEXT VStr Sample.context
           Sample.next 0 Sample.proceeding).
  unfold toInterceptor, Sample.context. rewrite lookup_singleton_eq.
  reflexivity.
Defined.

Lemma callback_in_handler_decides_sample :
  let st :=
    toInterceptor Sample.HTTP_CONTEXT VStr Fixture.closedThenFailed
      Sample.context Sample.next 0 in
  (nullish (VStr "boom") = true -> resumes Fixture.closedThenFailed = true ->
   awaiting st = false /\ result st = fst (Sample.next 0)
   /\ down st = snd (Sample.next 0))
  /\ (nullish (VStr "boom") = false ->
      down st = 0
      /\ (resumes Fixture.closedThenFailed = true ->
          awaiting st = false /\ result st = Some (Throw (VStr "boom")))).
Proof.
  apply (callback_in_handler_decides Sample.HTTP_CONTEXT VStr Sample.context
           Sample.ctx Sample.next 0 Fixture.closedThenFailed [Close]
           (VStr "boom") []).
  - apply lookup_singleton_eq.
  - reflexivity.
  - repeat constructor.
Defined.

Lemma failure_rejects_without_next_sample :
  let st :=
    toInterceptor Sample.HTTP_CONTEXT VStr Fixture.throwing Sample.context
      Sample.next 0 in
  nextCalls Sample.HTTP_CONTEXT VStr Fixture.throwing Sample.context
    Sample.next 0 = 0
  /\ down st = 0
  /\ (resumes Fixture.throwing = true ->
      awaiting st = false /\ result st = Some (Throw VUndefined)).
Proof.
  apply (failure_rejects_without_next Sample.HTTP_CONTEXT VStr Sample.context
           Sample.ctx Sample.next 0 Fixture.throwing VUndefined).
  - apply lookup_singleton_eq.
  - left. reflexivity.
Defined.

(** ** More on registration *)

(** [asMiddleware] sets the tag [group], to the group of the options or the
    empty group, and attaches the binding to the extension point of the
    options, or to [middleware.defaultChain]; the key, the bound value and
    the other tags stay. Applied again with other options, the group is that
    of the last options, and the binding is attached to both points besides
    those it had. Applied again with the same options, it changes nothing. *)
Theorem asMiddleware_retags options1 options2 b :
  let b1 := asMiddleware options1 b in
  let b2 := asMiddleware options2 b1 in
  let point options :=
    default MIDDLEWARE_EXTENSION_POINT (extensionPointName options) in
  tagMap b1 !! "group" = Some (default EmptyString (group options1))
  /\ extensionFilter (point options1) b1 = true
  /\ key b1 = key b
  /\ bound b1 = bound b
  /\ (forall t, t <> "group" -> tagMap b1 !! t = tagMap b !! t)
  /\ tagMap b2 !! "group" = Some (default EmptyString (group options2))
  /\ (forall p, extensionFilter p b2 = true
       <-> extensionFilter p b = true
           \/ p = point options1 \/ p = point options2)
  /\ asMiddleware options1 b1 = b1.
Proof.
  cbv zeta. rewrite !asMiddleware_group. split_and!; try done.
  - rewrite extensionFilter_elem, asMiddleware_extensionPoints. by right.
  - intros t Ht. unfold asMiddleware, tag, extensionFor. simpl.
    by rewrite lookup_insert_ne.
  - intros p. rewrite !extensionFilter_elem, !asMiddleware_extensionPoints.
    tauto.
  - unfold asMiddleware, tag, extensionFor. simpl. f_equal.
    + apply insert_insert_eq.
    + set (p := default MIDDLEWARE_EXTENSION_POINT
                  (extensionPointName options1)).
      destruct (decide (p ∈ extensionPoints b)) as [Hin|Hin].
      * by rewrite !(bool_decide_eq_true_2 _ Hin).
      * rewrite (bool_decide_eq_false_2 _ Hin).
        by rewrite bool_decide_eq_true_2
          by (apply elem_of_app; right; left).
Qed.

Section RegistrationMore.
Variable createBindingFromClass :
  string -> Middleware Binding -> string -> option string -> Binding.

(** [registerMiddleware] fails only for a middleware function registered
    without a key, with the assertion on [options.key]; a provider class
    needs no key. *)
Theorem registerMiddleware_fails_iff ctx middleware options :
  ((exists e, registerMiddleware createBindingFromClass ctx middleware options
              = inl e)
   <-> (exists m, middleware = Fn m) /\ truthy (bindingKey options) = false)
  /\ (forall e,
      registerMiddleware createBindingFromClass ctx middleware options
      = inl e ->
      e = AssertionError "options.key is missing.").
Proof.
  unfold registerMiddleware. destruct middleware as [m|cls provides].
  - destruct (truthy (bindingKey options)); split.
    + split; [by intros [e ?]|by intros [_ ?]].
    + done.
    + split; [intros _; eauto|intros _; eauto].
    + by intros e [= <-].
  - split; [|done]. split; [by intros [e ?]|by intros [[m ?] _]].
Qed.


End RegistrationMore.


(** ** Express middleware *)

Section ExpressMore.
Context {C : Type}.
Variable configure : string -> value -> C -> C.
Variable evaluated :
  string -> ExpressMiddlewareFactory -> failure + ProviderClass.
Variable createBindingFromClass :
  string -> Middleware Binding -> string -> option string -> Binding.
Variable provided : ProviderClass -> Middleware Binding.
Variable GLOBAL_INTERCEPTOR_SOURCE : string.
Variable asGlobalInterceptor :
  option string -> gmap string string -> gmap string string.




(** With injection of the configuration, the binding of
    [registerExpressMiddlewareInterceptor] is the one
    [createBindingFromClass] makes for the provider class in the namespace
    [interceptors], without a key: [options.key] is not used. The binding is
    left as it is when [options.global] is false; otherwise it is tagged as
    coming from the route and as a global interceptor of [options.group], or
    of the group [middleware] when none is given. *)
Theorem registerExpressMiddlewareInterceptor_class ctx configs factory config
    options cls :
  Interceptor.injectConfiguration options <> Some false ->
  defineInterceptorProvider evaluated factory
    (Interceptor.providerClassName options) = inr cls ->
  let made :=
    createBindingFromClass (className cls) (provided cls) "interceptors"
      None in
  exists b,
    Interceptor.registerExpressMiddlewareInterceptor configure evaluated
      createBindingFromClass provided GLOBAL_INTERCEPTOR_SOURCE
      asGlobalInterceptor ctx configs factory config options
    = inr (add b ctx, configured configure (key b) config configs, b)
    /\ key b = key made /\ bound b = bound made
    /\ (Interceptor.global options = Some false -> b = made)
    /\ (Interceptor.global options <> Some false ->
        tagMap b
        = asGlobalInterceptor
            (Some (default "middleware" (Interceptor.group options)))
            (<[GLOBAL_INTERCEPTOR_SOURCE := "route"]> (tagMap made))).
Proof.
  intros Hinject Hcls. cbv zeta.
  unfold Interceptor.registerExpressMiddlewareInterceptor.
  assert (negb (default false
                  (Interceptor.injectConfiguration options ?? Some true))
          = false) as Hneg.
  { by destruct (Interceptor.injectConfiguration options) as [[|]|]. }
  cbn [Interceptor.injectConfiguration Interceptor.providerClassName].
  rewrite Hneg, Hcls.
  eexists. split; [done|].
  unfold Interceptor.createMiddlewareInterceptorBinding, Interceptor.globally.
  cbn [Interceptor.global Interceptor.group].
  destruct (Interceptor.global options) as [[|]|];
    cbn [orElse default from_option id]; split_and!; try done.
  - intros _. unfold retag, tag. cbn [tagMap].
    by destruct (Interceptor.group options).
  - intros _. unfold retag, tag. cbn [tagMap].
    by destruct (Interceptor.group options).
Qed.

End ExpressMore.

(** The registration of the factory [cors] in an empty context. *)




Lemma registerExpressMiddlewareInterceptor_class_sample :
  let options :=
    {| Interceptor.injectConfiguration := None;
       Interceptor.providerClassName := None;
       Interceptor.bindingKey := Some "ignored";
       Interceptor.group := None;
       Interceptor.global := None |} in
  let cls :=
    {| className := "cors";
       valueOf := fun middlewareConfig =>
         inr (produce Fixture.cors middlewareConfig) |} in
  let made :=
    Sample.createBindingFromClass (className cls) (Fixture.provided cls)
      "interceptors" None in
  exists b,
    Interceptor.registerExpressMiddlewareInterceptor Fixture.configure
      Fixture.evaluated Sample.createBindingFromClass Fixture.provided
      "globalInterceptorSource" Fixture.asGlobalInterceptor [] ∅
      Fixture.cors None options
    = inr (add b [], configured Fixture.configure (key b) None ∅, b)
    /\ key b = key made /\ bound b = bound made
    /\ (Interceptor.global options = Some false -> b = made)
    /\ (Interceptor.global options <> Some false ->
        tagMap b
        = Fixture.asGlobalInterceptor
            (Some (default "middleware" (Interceptor.group options)))
            (<["globalInterceptorSource" := "route"]> (tagMap made))).
Proof.
  apply (registerExpressMiddlewareInterceptor_class Fixture.configure
           Fixture.evaluated Sample.createBindingFromClass Fixture.provided
           "globalInterceptorSource" Fixture.asGlobalInterceptor [] ∅
           Fixture.cors None).
  - discriminate.
  - reflexivity.
Defined.

(** ** More on the provider of the invoker *)

Section ProviderMore.
Variable HTTP_CONTEXT : string.
Variable unbound : string -> value.
Variable endOfChain : value.
Variable invalidChainUsage : value.

(** The options of one invocation win over the provider: an extension point
    and groups that are given, be they the empty string and the empty list,
    are used as they are, whatever the tag of the binding and the configured
    defaults. And where neither the options nor the tag nor the configured
    defaults name an extension point, the chain is still that of
    [middleware.defaultChain], by the default of [invokeMiddleware]. *)
Theorem invoker_precedence this point groups w :
  invoker HTTP_CONTEXT unbound endOfChain invalidChainUsage this
    (Some {| extensionPoint := Some point; orderedGroups := Some groups |}) w
  = invokeMiddleware HTTP_CONTEXT unbound endOfChain invalidChainUsage
      (Some {| extensionPoint := Some point; orderedGroups := Some groups |})
      w
  /\ (forall options,
      options ≫= extensionPoint = None ->
      binding this ≫= (fun b => tagMap b !! EXTENSION_POINT) = None ->
      extensionPoint (defaultOptions this) = None ->
      invoker HTTP_CONTEXT unbound endOfChain invalidChainUsage this options w
      = invokeInterceptors HTTP_CONTEXT unbound endOfChain invalidChainUsage
          {| chainFilter := extensionFilter "middleware.defaultChain";
             chainComparator :=
               compareBindingsByTag "group"
                 (options ≫= orderedGroups
                  ?? orderedGroups (defaultOptions this)) |} w).
Proof.
  split; [done|].
  intros options Hopt Htag Hdef.
  unfold invoker, action, invokeMiddleware, actionOptions.
  by rewrite Hopt, Htag, Hdef.
Qed.

End ProviderMore.
